(** * ObsidiRAG: file-status store, watch handlers and indexing pipeline

    A shallow embedding of
      - [src/databases/file/models/*.py] and [src/databases/file/crud.py]
        (the persisted [FileStatus] table and its CRUD statements),
      - [src/core/monitor/handler.py] (the watchdog event handlers),
      - [src/core/indexing/index.py] (chunking, reading, embedding,
        LanceDB upsert / search / delete),
      - [src/core/indexing/api.py] (the HTTP endpoints driving them),
    followed by the properties proved about them. *)

From Stdlib Require Import List Finite String Ascii Bool Arith Lia Sorted Floats DecimalString.
Import ListNotations.
Open Scope string_scope.
Open Scope nat_scope.
Open Scope list_scope.

(** ** Python values shared by all modules *)

Module Py.

(** The exception classes that the modelled code raises or catches. *)
Inductive exn : Type :=
| IntegrityError          (* sqlalchemy: primary key already present *)
| MultipleResultsFound    (* sqlalchemy: scalar_one_or_none on >1 rows *)
| ValueError (msg : string)
| HTTPException (status_code : nat) (detail : string)
| OtherError (cls : string) (msg : string).    (* any other exception class *)

Inductive result (A : Type) : Type :=
| Ok (a : A)
| Raise (e : exn).
Arguments Ok {A} a.
Arguments Raise {A} e.

(** [s.split(sep)] for a one-character separator: never empty. *)
Fixpoint split (sep : ascii) (s : string) : list string :=
  match s with
  | EmptyString => [EmptyString]
  | String c rest =>
      if Ascii.eqb c sep then EmptyString :: split sep rest
      else match split sep rest with
           | [] => [String c EmptyString]
           | h :: t => String c h :: t
           end
  end.

(** [s.split("/")[-1]], which is also [os.path.basename s] on POSIX. *)
Definition last_segment (s : string) : string :=
  last (split "/"%char s) EmptyString.

Definition os_path_basename (p : string) : string := last_segment p.

(** [str.lower] on the ASCII letters. *)
Definition lower_ascii (c : ascii) : ascii :=
  let n := nat_of_ascii c in
  if (65 <=? n) && (n <=? 90) then ascii_of_nat (n + 32) else c.

Fixpoint lower (s : string) : string :=
  match s with
  | EmptyString => EmptyString
  | String c r => String (lower_ascii c) (lower r)
  end.

(** [s.rfind(c)], as an option instead of -1. *)
Fixpoint rfind (c : ascii) (s : string) : option nat :=
  match s with
  | EmptyString => None
  | String d r =>
      match rfind c r with
      | Some i => Some (S i)
      | None => if Ascii.eqb d c then Some 0 else None
      end
  end.

(** [pathlib.PurePosixPath(p)]: the components between slashes, the
    empty ones and the ["."] ones dropped; the root, where exactly two
    leading slashes are kept as they are; [str(path)], which is what
    [exists()] and [open] hand to the system; and [path.name], the last
    component. *)
Definition path_parts (p : string) : list string :=
  filter (fun c => negb (String.eqb c "") && negb (String.eqb c "."))
    (split "/"%char p).

Fixpoint starts_with (pre s : string) : bool :=
  match pre, s with
  | EmptyString, _ => true
  | String a pre', String b s' => Ascii.eqb a b && starts_with pre' s'
  | String _ _, EmptyString => false
  end.

Definition path_root (p : string) : string :=
  if starts_with "///" p then "/"
  else if starts_with "//" p then "//"
  else if starts_with "/" p then "/"
  else "".

Definition path_str (p : string) : string :=
  let s := (path_root p ++ String.concat "/" (path_parts p))%string in
  if String.eqb s "" then "." else s.

Definition path_name (p : string) : string := last (path_parts p) EmptyString.

(** [pathlib.PurePath.suffix] (Python 3.11): the part of the final
    component from its last dot, unless that dot is the first or the
    last character. *)
Definition path_suffix (p : string) : string :=
  let name := path_name p in
  match rfind "."%char name with
  | Some i =>
      if (0 <? i) && (i <? String.length name - 1)
      then substring i (String.length name - i) name
      else EmptyString
  | None => EmptyString
  end.

Definition str_in (s : string) (l : list string) : bool :=
  existsb (String.eqb s) l.

End Py.
Import Py.

(** ** The persisted status table *)

Module Store.

(** [FileStatusEnum] of [file_status_enum.py]. *)
Inductive FileStatusEnum : Type :=
| PENDING | MODIFIED | SYNCED | DELETED | ERROR.

Definition status_eqb (a b : FileStatusEnum) : bool :=
  match a, b with
  | PENDING, PENDING | MODIFIED, MODIFIED | SYNCED, SYNCED
  | DELETED, DELETED | ERROR, ERROR => true
  | _, _ => false
  end.

(** One row of table [file_status] ([file_status.py]); [id] is the
    primary key, [path] carries no uniqueness constraint. *)
Record FileStatus : Type := mkFileStatus {
  fs_id : string;
  fs_name : string;
  fs_path : string;
  fs_status : FileStatusEnum
}.

(** The table, rows in insertion order. *)
Definition db := list FileStatus.

(** A record is live when it is not marked [DELETED]. *)
Definition live (r : FileStatus) : bool := negb (status_eqb (fs_status r) DELETED).

(** [Result.scalar_one_or_none()]. *)
Definition scalar_one_or_none {A} (rows : list A) : result (option A) :=
  match rows with
  | [] => Ok None
  | [r] => Ok (Some r)
  | _ :: _ :: _ => Raise MultipleResultsFound
  end.

Definition has_id (i : string) (r : FileStatus) : bool := String.eqb (fs_id r) i.
Definition has_path (p : string) (r : FileStatus) : bool := String.eqb (fs_path r) p.

Definition set_status (s : FileStatusEnum) (r : FileStatus) : FileStatus :=
  mkFileStatus (fs_id r) (fs_name r) (fs_path r) s.

Definition set_name (n : string) (r : FileStatus) : FileStatus :=
  mkFileStatus (fs_id r) n (fs_path r) (fs_status r).

Definition set_path_name (p n : string) (r : FileStatus) : FileStatus :=
  mkFileStatus (fs_id r) n p (fs_status r).

(** [UPDATE ... WHERE cond SET f]. *)
Definition update_where (cond : FileStatus -> bool) (f : FileStatus -> FileStatus)
  (d : db) : db :=
  map (fun r => if cond r then f r else r) d.

(** [DELETE ... WHERE cond]. *)
Definition delete_where (cond : FileStatus -> bool) (d : db) : db :=
  filter (fun r => negb (cond r)) d.

(** [create_file_status]: INSERT; the primary key rejects a second row
    with the same id and nothing is committed then. *)
Definition create_file_status (d : db) (file_status : FileStatus)
  : db * result FileStatus :=
  if existsb (has_id (fs_id file_status)) d
  then (d, Raise IntegrityError)
  else (d ++ [file_status], Ok file_status).

Definition get_file_status (d : db) (file_id : string) : result (option FileStatus) :=
  scalar_one_or_none (filter (has_id file_id) d).

Definition update_file_status (d : db) (file_id : string) (new_status : FileStatusEnum)
  : db :=
  update_where (has_id file_id) (set_status new_status) d.

Definition delete_file_status (d : db) (file_id : string) : db :=
  delete_where (has_id file_id) d.

Definition list_all_file_statuses (d : db) : list FileStatus := d.

Definition list_file_statuses_by_status (d : db) (s : FileStatusEnum) : list FileStatus :=
  filter (fun r => status_eqb (fs_status r) s) d.

Definition count_file_statuses_by_status (d : db) (s : FileStatusEnum) : nat :=
  List.length (list_file_statuses_by_status d s).

(** [bulk_update_file_statuses]: one UPDATE per dict item, in order. *)
Definition bulk_update_file_statuses (d : db)
  (status_updates : list (string * FileStatusEnum)) : db :=
  fold_left (fun acc kv => update_where (has_id (fst kv)) (set_status (snd kv)) acc)
    status_updates d.

Definition bulk_delete_file_statuses (d : db) (file_ids : list string) : db :=
  delete_where (fun r => str_in (fs_id r) file_ids) d.

Definition get_file_status_by_path (d : db) (file_path : string)
  : result (option FileStatus) :=
  scalar_one_or_none (filter (has_path file_path) d).

Definition rename_file_status (d : db) (old_path new_path : string) : db :=
  update_where (has_path old_path) (set_path_name new_path (last_segment new_path)) d.

Definition delete_file_statuses_by_status (d : db) (s : FileStatusEnum) : db :=
  delete_where (fun r => status_eqb (fs_status r) s) d.

Definition get_or_create_file_status (d : db) (file_status : FileStatus)
  : db * result FileStatus :=
  match get_file_status d (fs_id file_status) with
  | Raise e => (d, Raise e)
  | Ok (Some existing) => (d, Ok existing)
  | Ok None => create_file_status d file_status
  end.

Definition update_file_status_name (d : db) (file_id new_name : string) : db :=
  update_where (has_id file_id) (set_name new_name) d.

(** The mutating statements of [crud.py], reified. *)
Inductive op : Type :=
| Create (file_status : FileStatus)
| GetOrCreate (file_status : FileStatus)
| Update (file_id : string) (new_status : FileStatusEnum)
| BulkUpdate (status_updates : list (string * FileStatusEnum))
| Delete (file_id : string)
| BulkDelete (file_ids : list string)
| DeleteByStatus (s : FileStatusEnum)
| Rename (old_path new_path : string)
| UpdateName (file_id new_name : string).

Definition apply (o : op) (d : db) : db :=
  match o with
  | Create r => fst (create_file_status d r)
  | GetOrCreate r => fst (get_or_create_file_status d r)
  | Update i s => update_file_status d i s
  | BulkUpdate us => bulk_update_file_statuses d us
  | Delete i => delete_file_status d i
  | BulkDelete ids => bulk_delete_file_statuses d ids
  | DeleteByStatus s => delete_file_statuses_by_status d s
  | Rename o n => rename_file_status d o n
  | UpdateName i n => update_file_status_name d i n
  end.

(** The rows an operation removes, and the row it may add. *)
Definition removes (o : op) (r : FileStatus) : bool :=
  match o with
  | Delete i => has_id i r
  | BulkDelete ids => str_in (fs_id r) ids
  | DeleteByStatus s => status_eqb (fs_status r) s
  | _ => false
  end.

Definition adds (o : op) (d : db) : list FileStatus :=
  match o with
  | Create r | GetOrCreate r =>
      if existsb (has_id (fs_id r)) d then [] else [r]
  | _ => []
  end.

(** The table invariants of the specification's data model. *)
Definition live_paths (d : db) : list string := map fs_path (filter live d).
Definition one_live_per_path (d : db) : Prop := NoDup (live_paths d).
Definition unique_ids (d : db) : Prop := NoDup (map fs_id d).

Definition no_live_at (p : string) (d : db) : bool :=
  negb (existsb (fun r => live r && has_path p r) d).

(** When an operation cannot put a second live record on a path:
    an insert or a rename needs the target path free of live records,
    a status update must not revive a [DELETED] row. *)
Definition revives (i : string) (s : FileStatusEnum) (d : db) : bool :=
  negb (status_eqb s DELETED) && existsb (fun r => has_id i r && negb (live r)) d.

Fixpoint bulk_revives (us : list (string * FileStatusEnum)) (d : db) : bool :=
  match us with
  | [] => false
  | (i, s) :: rest =>
      revives i s d || bulk_revives rest (update_where (has_id i) (set_status s) d)
  end.

Definition path_safe (o : op) (d : db) : bool :=
  match o with
  | Create r | GetOrCreate r =>
      existsb (has_id (fs_id r)) d || negb (live r) || no_live_at (fs_path r) d
  | Update i s => negb (revives i s d)
  | BulkUpdate us => negb (bulk_revives us d)
  | Rename o n => String.eqb o n || no_live_at n d
  | Delete _ | BulkDelete _ | DeleteByStatus _ | UpdateName _ _ => true
  end.

End Store.
Import Store.

(** ** The watchdog handlers ([handler.py]) *)

Module Watch.

(** A [watchdog] file-system event; [dest_path] is only read for moves. *)
Record event : Type := mkEvent {
  is_directory : bool;
  src_path : string;
  dest_path : string
}.

(** What a handler coroutine leaves behind: the table and whether it
    finished or raised. *)
Definition outcome : Type := (db * result unit)%type.

Definition _create_file_status_async (d : db) (file_status : FileStatus) : outcome :=
  match create_file_status d file_status with
  | (d', Ok _) => (d', Ok tt)
  | (d', Raise e) => (d', Raise e)
  end.

Definition _update_file_status_async (d : db) (file_path : string)
  (new_status : FileStatusEnum) : outcome :=
  match get_file_status_by_path d file_path with
  | Raise e => (d, Raise e)
  | Ok (Some existing) => (update_file_status d (fs_id existing) new_status, Ok tt)
  | Ok None => (d, Ok tt)
  end.

Definition _delete_file_status_async (d : db) (file_path : string) : outcome :=
  match get_file_status_by_path d file_path with
  | Raise e => (d, Raise e)
  | Ok (Some existing) => (delete_file_status d (fs_id existing), Ok tt)
  | Ok None => (d, Ok tt)
  end.

Definition _rename_file_status_async (d : db) (old_path new_path : string) : outcome :=
  (rename_file_status d old_path new_path, Ok tt).

(** [on_created]; [uuid] is the value [uuid4().hex] returns. *)
Definition on_created (uuid : string) (d : db) (ev : event) : outcome :=
  if negb (is_directory ev) then
    let file_status :=
      mkFileStatus uuid (os_path_basename (src_path ev)) (src_path ev) PENDING in
    _create_file_status_async d file_status
  else (d, Ok tt).

Definition on_modified (d : db) (ev : event) : outcome :=
  if negb (is_directory ev) then _update_file_status_async d (src_path ev) MODIFIED
  else (d, Ok tt).

Definition on_deleted (d : db) (ev : event) : outcome :=
  if negb (is_directory ev) then _delete_file_status_async d (src_path ev)
  else (d, Ok tt).

Definition on_moved (d : db) (ev : event) : outcome :=
  if negb (is_directory ev) then
    _rename_file_status_async d (src_path ev) (dest_path ev)
  else (d, Ok tt).

(** The four notification kinds the handler reacts to. *)
Inductive notification : Type :=
| Created (uuid : string) (ev : event)
| Modified (ev : event)
| Deleted (ev : event)
| Moved (ev : event).

Definition dispatch (d : db) (n : notification) : outcome :=
  match n with
  | Created uuid ev => on_created uuid d ev
  | Modified ev => on_modified d ev
  | Deleted ev => on_deleted d ev
  | Moved ev => on_moved d ev
  end.

End Watch.
Import Watch.

(** ** The indexing pipeline ([index.py]) *)

Module Index.

Definition TABLE_NAME : string := "obsidirag_index".
Definition EMBEDDING_DIMENSION : nat := 1536.
Definition CHUNK_SIZE : nat := 1000.
Definition CHUNK_OVERLAP : nat := 200.

Definition ALLOWED_SUFFIXES : list string :=
  [".md"; ".txt"; ".py"; ".js"; ".ts"; ".json"; ".yaml"; ".yml"; ".csv"].

Definition vector : Type := list float.

(** One row of the LanceDB table, with the schema [index_file] creates. *)
Record row : Type := mkRow {
  r_vector : vector;
  r_text : string;
  r_file_id : string;
  r_file_path : string;
  r_chunk_index : nat
}.

(** One row of the data frame a vector search returns: the stored
    columns and, when present, the [_distance] column. *)
Record hit : Type := mkHit {
  h_text : string;
  h_file_path : string;
  h_file_id : string;
  h_chunk_index : nat;
  h_distance : option float
}.

(** The calls made on the LanceDB connection and table. *)
Inductive lance_call : Type :=
| Connect
| TableNames
| CreateTable
| OpenTable
| Add (data : list row)
| Search (query : vector) (limit : nat)
| DeleteWhere (predicate : string).

(** The encoding [tiktoken.get_encoding] returns; encoding and decoding
    may raise. *)
Record codec : Type := mkCodec {
  encode : string -> result (list nat);
  decode : list nat -> result string
}.

(** Everything outside the repository that the pipeline calls, as
    oracles read at the time [t] of the operation: [tiktoken], the file
    system, the embedding provider, the vector store's faults and
    search engine, and the faults of the status table's writes.
    [tiktoken] is [None] when the import raises [ImportError],
    [Some (Raise e)] when [get_encoding] raises [e].  [None] from
    [open_read] or [embeddings_create] and [true] from [lance_raises]
    stand for a raised exception; [status_write_raises t file_id] is the
    exception, if any, of the UPDATE that is the [t]-th write. *)
Record World : Type := mkWorld {
  tiktoken : option (result codec);
  path_exists : nat -> string -> bool;
  open_read : nat -> string -> option string;
  embeddings_create : nat -> list string -> option (list vector);
  lance_raises : nat -> lance_call -> bool;
  lance_search : nat -> list row -> vector -> nat -> list hit;
  status_write_raises : nat -> string -> option exn
}.

(** The vector store: the table (absent until first created) and the
    number of pipeline operations run so far. *)
Record lance : Type := mkLance {
  table : option (list row);
  clock : nat
}.

Definition tick (st : lance) : lance := mkLance (table st) (S (clock st)).
Definition with_table (rows : list row) (st : lance) : lance :=
  mkLance (Some rows) (clock st).

(** [range(0, stop, step)] for a positive [step]; [stop] iterations
    always suffice. *)
Fixpoint range_loop (fuel i stop step : nat) : list nat :=
  match fuel with
  | 0 => []
  | S fuel' =>
      if i <? stop then i :: range_loop fuel' (i + step) stop step else []
  end.

(** [range(0, stop, chunk_size - overlap)]: a zero step raises, a
    negative one yields nothing. *)
Definition range_by (stop chunk_size overlap : nat) : result (list nat) :=
  match Nat.compare chunk_size overlap with
  | Eq => Raise (ValueError "range() arg 3 must not be zero")
  | Lt => Ok []
  | Gt => Ok (range_loop stop 0 stop (chunk_size - overlap))
  end.

(** [l[i:i+n]] on a list. *)
Definition slice {A} (i n : nat) (l : list A) : list A := firstn n (skipn i l).

(** The token loop: each window decoded in turn, the first exception
    ending it. *)
Fixpoint decode_all (dec : list nat -> result string) (windows : list (list nat))
  : result (list string) :=
  match windows with
  | [] => Ok []
  | x :: rest =>
      match dec x with
      | Raise e => Raise e
      | Ok chunk =>
          match decode_all dec rest with
          | Raise e => Raise e
          | Ok chunks => Ok (chunk :: chunks)
          end
      end
  end.

(** [chunk_text]: character windows when [tiktoken] cannot be imported,
    token windows decoded back to text otherwise.  Only [ImportError]
    is caught: what [get_encoding], [encode] or [decode] raise leaves
    the function.  A character of the text is one code point of the
    Python string. *)
Definition chunk_text (w : World) (text : string) (chunk_size overlap : nat)
  : result (list string) :=
  match tiktoken w with
  | None =>
      match range_by (String.length text) chunk_size overlap with
      | Raise e => Raise e
      | Ok starts => Ok (map (fun i => substring i chunk_size text) starts)
      end
  | Some (Raise e) => Raise e
  | Some (Ok encoding) =>
      match encode encoding text with
      | Raise e => Raise e
      | Ok tokens =>
          match range_by (List.length tokens) chunk_size overlap with
          | Raise e => Raise e
          | Ok starts =>
              decode_all (decode encoding)
                (map (fun i => slice i chunk_size tokens) starts)
          end
      end
  end.

(** [read_file_content]: [None] for a missing file, an extension outside
    the allow-list, or a failed read.  The file system is asked about
    [str(Path(file_path))]. *)
Definition read_file_content (w : World) (t : nat) (file_path : string)
  : option string :=
  if negb (path_exists w t (path_str file_path)) then None
  else if str_in (lower (path_suffix file_path)) ALLOWED_SUFFIXES
       then open_read w t (path_str file_path)
       else None.

Definition create_embeddings (w : World) (t : nat) (texts : list string)
  : option (list vector) :=
  embeddings_create w t texts.

Fixpoint enumerate_from {A} (i : nat) (l : list A) : list (nat * A) :=
  match l with
  | [] => []
  | x :: r => (i, x) :: enumerate_from (S i) r
  end.

Definition enumerate {A} (l : list A) : list (nat * A) := enumerate_from 0 l.

Definition make_rows (file_path file_id : string) (chunks : list string)
  (embeddings : list vector) : list row :=
  map (fun ice => mkRow (snd (snd ice)) (fst (snd ice)) file_id file_path (fst ice))
    (enumerate (combine chunks embeddings)).

(** Python truthiness of the values [index_file] tests. *)
Definition str_truthy (s : string) : bool :=
  match s with EmptyString => false | _ => true end.

(** [index_file]: every exception ends in the [except Exception] clause
    and turns into [False]; a table created before a failing [add]
    stays created. *)
Definition index_file (w : World) (st : lance) (file_path file_id : string)
  : bool * lance :=
  let t := clock st in
  let st := tick st in
  match read_file_content w t file_path with
  | None => (false, st)
  | Some content =>
      if negb (str_truthy content) then (false, st) else
      match chunk_text w content CHUNK_SIZE CHUNK_OVERLAP with
      | Raise _ => (false, st)
      | Ok [] => (false, st)
      | Ok chunks =>
          match create_embeddings w t chunks with
          | None => (false, st)
          | Some embeddings =>
              if lance_raises w t Connect || lance_raises w t TableNames
              then (false, st)
              else
                let opened :=
                  match table st with
                  | None =>
                      if lance_raises w t CreateTable then None
                      else Some (with_table [] st, [])
                  | Some rows =>
                      if lance_raises w t OpenTable then None
                      else Some (st, rows)
                  end in
                match opened with
                | None => (false, st)
                | Some (st1, rows) =>
                    let data := make_rows file_path file_id chunks embeddings in
                    if lance_raises w t (Add data) then (false, st1)
                    else (true, with_table (rows ++ data) st1)
                end
          end
      end
  end.

(** The dictionary [index_files] returns. *)
Record batch_result : Type := mkBatch {
  total : nat;
  success : nat;
  failed : nat;
  failed_files : list string
}.

(** The loop state of [index_files]. *)
Record batch_acc : Type := mkAcc {
  success_count : nat;
  fail_count : nat;
  failed_acc : list string;
  acc_lance : lance
}.

Definition batch_step (w : World) (a : batch_acc) (pi : string * string) : batch_acc :=
  match index_file w (acc_lance a) (fst pi) (snd pi) with
  | (true, st') =>
      mkAcc (S (success_count a)) (fail_count a) (failed_acc a) st'
  | (false, st') =>
      mkAcc (success_count a) (S (fail_count a)) (failed_acc a ++ [fst pi]) st'
  end.

(** [str(i)] for the default ids. *)
Definition str_of_nat (i : nat) : string :=
  DecimalString.NilZero.string_of_uint (Nat.to_uint i).

Definition index_files (w : World) (st : lance) (file_paths : list string)
  (file_ids : option (list string)) : result batch_result * lance :=
  let file_ids :=
    match file_ids with
    | None => map str_of_nat (seq 0 (List.length file_paths))
    | Some ids => ids
    end in
  if negb (List.length file_paths =? List.length file_ids)
  then (Raise (ValueError "file_paths and file_ids must have the same length"), st)
  else
    let a := fold_left (batch_step w) (combine file_paths file_ids)
               (mkAcc 0 0 [] st) in
    (Ok (mkBatch (List.length file_paths) (success_count a) (fail_count a)
           (failed_acc a)),
     acc_lance a).

(** One entry of the list [search_similar] returns. *)
Record search_result : Type := mkResult {
  sr_text : string;
  sr_file_path : string;
  sr_file_id : string;
  sr_chunk_index : nat;
  sr_score : float
}.

Definition format_hit (h : hit) : search_result :=
  mkResult (h_text h) (h_file_path h) (h_file_id h) (h_chunk_index h)
    (match h_distance h with Some d => d | None => 0%float end).

(** [search_similar]: any exception, and a missing table, give []. *)
Definition search_similar (w : World) (st : lance) (query : string) (limit : nat)
  : list search_result * lance :=
  let t := clock st in
  let st := tick st in
  match create_embeddings w t [query] with
  | None | Some [] => ([], st)
  | Some (query_embedding :: _) =>
      if lance_raises w t Connect || lance_raises w t TableNames then ([], st)
      else
        match table st with
        | None => ([], st)
        | Some rows =>
            if lance_raises w t OpenTable
               || lance_raises w t (Search query_embedding limit)
            then ([], st)
            else (map format_hit (lance_search w t rows query_embedding limit), st)
        end
  end.

(** The predicate string handed to [table.delete]. *)
Definition where_file_id (file_id : string) : string :=
  ("file_id = '" ++ file_id ++ "'")%string.

(** A file id without a quote character: the predicate then is the
    comparison of [file_id] with one SQL string literal, which is how
    [delete_file_from_index] below reads it. *)
Definition sql_plain (file_id : string) : bool :=
  negb (existsb (Ascii.eqb "'"%char) (list_ascii_of_string file_id)).

(** [delete_file_from_index]: [False] for a missing table or an
    exception, [True] otherwise, whether or not rows matched.  The
    retry of [table.delete] without the keyword after a [TypeError]
    passes the same predicate and is the same call here. *)
Definition delete_file_from_index (w : World) (st : lance) (file_id : string)
  : bool * lance :=
  let t := clock st in
  let st := tick st in
  if lance_raises w t Connect || lance_raises w t TableNames then (false, st)
  else
    match table st with
    | None => (false, st)
    | Some rows =>
        if lance_raises w t OpenTable
           || lance_raises w t (DeleteWhere (where_file_id file_id))
        then (false, st)
        else
          (true,
           with_table (filter (fun r => negb (String.eqb (r_file_id r) file_id)) rows) st)
    end.

End Index.
Import Index.

(** ** The HTTP endpoints ([api.py]) *)

Module Api.

(** [str(e)] of the exceptions an endpoint formats into a detail. *)
Definition str_exn (e : exn) : string :=
  match e with
  | IntegrityError => "IntegrityError"
  | MultipleResultsFound => "Multiple rows were found when one or none was required"
  | ValueError msg => msg
  | HTTPException code detail =>
      (str_of_nat code ++ ": " ++ detail)%string
  | OtherError _ msg => msg
  end.

(** [run_indexing], first loop: resolve each path to the id of its
    status record; paths without a record are dropped. *)
Fixpoint resolve_paths (d : db) (paths : list string)
  : result (list string * list string) :=
  match paths with
  | [] => Ok ([], [])
  | path :: rest =>
      match get_file_status_by_path d path with
      | Raise e => Raise e
      | Ok found =>
          match resolve_paths d rest with
          | Raise e => Raise e
          | Ok (valid_paths, file_ids) =>
              match found with
              | Some file_status => Ok (path :: valid_paths, fs_id file_status :: file_ids)
              | None => Ok (valid_paths, file_ids)
              end
          end
      end
  end.

(** [run_indexing], second loop, when no write raises: ERROR for the
    paths in [failed_files], SYNCED for the others. *)
Definition mark_outcomes (d : db) (pairs : list (string * string))
  (failed_files : list string) : db :=
  fold_left
    (fun acc pi =>
       if str_in (fst pi) failed_files
       then update_file_status acc (snd pi) ERROR
       else update_file_status acc (snd pi) SYNCED)
    pairs d.

Definition mark_all_error (d : db) (file_ids : list string) : db :=
  fold_left (fun acc file_id => update_file_status acc file_id ERROR) file_ids d.

(** The second loop with the writes that may raise: the table as far
    as the loop got, the number of writes tried, and the exception that
    ended it, if one did.  Each UPDATE is committed on its own. *)
Fixpoint write_outcomes (w : World) (t : nat) (d : db)
  (pairs : list (string * string)) (failed_files : list string)
  : db * nat * option exn :=
  match pairs with
  | [] => (d, t, None)
  | pi :: rest =>
      match status_write_raises w t (snd pi) with
      | Some e => (d, S t, Some e)
      | None =>
          write_outcomes w (S t)
            (if str_in (fst pi) failed_files
             then update_file_status d (snd pi) ERROR
             else update_file_status d (snd pi) SYNCED)
            rest failed_files
      end
  end.

(** The loop of the [except] clause: ERROR for every id, a write that
    raises being passed over. *)
Fixpoint write_all_error (w : World) (t : nat) (d : db) (file_ids : list string)
  : db :=
  match file_ids with
  | [] => d
  | file_id :: rest =>
      match status_write_raises w t file_id with
      | Some _ => write_all_error w (S t) d rest
      | None => write_all_error w (S t) (update_file_status d file_id ERROR) rest
      end
  end.

Definition run_indexing (w : World) (d : db) (st : lance) (paths : list string)
  : result batch_result * db * lance :=
  match paths with
  | [] => (Raise (HTTPException 400 "No file paths provided"), d, st)
  | _ =>
      match resolve_paths d paths with
      | Raise e => (Raise e, d, st)
      | Ok ([], _) =>
          (Raise (HTTPException 404 "No valid files found for indexing"), d, st)
      | Ok (valid_paths, file_ids) =>
          match index_files w st valid_paths (Some file_ids) with
          | (Ok res, st') =>
              match write_outcomes w (clock st') d (combine valid_paths file_ids)
                      (failed_files res) with
              | (d', _, None) => (Ok res, d', st')
              | (d', t, Some e) =>
                  (Raise (HTTPException 500 ("Indexing failed: " ++ str_exn e)%string),
                   write_all_error w t d' file_ids, st')
              end
          | (Raise e, st') =>
              (Raise (HTTPException 500 ("Indexing failed: " ++ str_exn e)%string),
               write_all_error w (clock st') d file_ids, st')
          end
      end
  end.

Definition search_index (w : World) (st : lance) (query : string) (limit : nat)
  : result (list search_result) * lance :=
  if negb (str_truthy query) then (Raise (HTTPException 400 "Query is required"), st)
  else
    let '(results, st') := search_similar w st query limit in
    (Ok results, st').

(** The body of the [try] block of [delete_indexed_file]. *)
Definition delete_indexed_file_body (w : World) (d : db) (st : lance)
  (file_id : string) : result string * db * lance :=
  match delete_file_from_index w st file_id with
  | (true, st') =>
      match get_file_status d file_id with
      | Raise e => (Raise e, d, st')
      | Ok (Some _) => (Ok file_id, update_file_status d file_id PENDING, st')
      | Ok None => (Ok file_id, d, st')
      end
  | (false, st') => (Raise (HTTPException 404 "File not found in index"), d, st')
  end.

(** [delete_indexed_file]: the [except Exception] clause around the
    body turns every exception raised in it into a 500 response. *)
Definition delete_indexed_file (w : World) (d : db) (st : lance)
  (file_id : string) : result string * db * lance :=
  match delete_indexed_file_body w d st file_id with
  | (Ok v, d', st') => (Ok v, d', st')
  | (Raise e, d', st') =>
      (Raise (HTTPException 500 ("Delete failed: " ++ str_exn e)%string), d', st')
  end.

(** The three ways the remove-from-index endpoint can answer. *)
Inductive reply : Type := Deleted | NotFound | ServerError.

Definition reply_of {A} (r : result A) : reply :=
  match r with
  | Ok _ => Deleted
  | Raise (HTTPException 404 _) => NotFound
  | Raise _ => ServerError
  end.

End Api.
Import Api.

(** ** Vocabulary of the properties *)

Module Prop_defs.

(** Ceiling of [a / b]. *)
Definition ceil_div (a b : nat) : nat := (a + (b - 1)) / b.

(** The part of a window that lies at or after the start of the next
    window, [step] units further on. *)
Definition window_overlap (step : nat) (a : string) : string :=
  substring step (String.length a - step) a.

(** The per-file outcomes of one batch, in order: what [index_file]
    answers for each pair, the store being threaded through. *)
Fixpoint batch_trace (w : World) (st : lance) (pairs : list (string * string))
  : list (string * bool) :=
  match pairs with
  | [] => []
  | (p, i) :: rest =>
      (p, fst (index_file w st p i)) :: batch_trace w (snd (index_file w st p i)) rest
  end.

Fixpoint lance_after (w : World) (st : lance) (pairs : list (string * string)) : lance :=
  match pairs with
  | [] => st
  | (p, i) :: rest => lance_after w (snd (index_file w st p i)) rest
  end.

Definition failed_of (tr : list (string * bool)) : list string :=
  map fst (filter (fun x => negb (snd x)) tr).

Definition succeeded_of (tr : list (string * bool)) : list string :=
  map fst (filter (fun x => snd x) tr).

(** At time [t] the file is gone, or its extension is not allowed. *)
Definition not_indexable (w : World) (t : nat) (p : string) : bool :=
  negb (path_exists w t (path_str p))
  || negb (str_in (lower (path_suffix p)) ALLOWED_SUFFIXES).

(** At time [t] the file exists with an allowed extension, but reading
    it fails or it yields no chunk. *)
Definition unreadable_or_empty (w : World) (t : nat) (p : string) : bool :=
  path_exists w t (path_str p)
  && str_in (lower (path_suffix p)) ALLOWED_SUFFIXES
  && match open_read w t (path_str p) with
     | None => true
     | Some content =>
         negb (str_truthy content)
         || match chunk_text w content CHUNK_SIZE CHUNK_OVERLAP with
            | Ok [] => true
            | _ => false
            end
     end.

(** At time [t] the file reads and chunks, and the embedding call for
    its chunks raises. *)
Definition embedding_fails (w : World) (t : nat) (p : string) : bool :=
  match read_file_content w t p with
  | None => false
  | Some content =>
      str_truthy content
      && match chunk_text w content CHUNK_SIZE CHUNK_OVERLAP with
         | Ok (c :: cs) =>
             match create_embeddings w t (c :: cs) with
             | None => true
             | Some _ => false
             end
         | _ => false
         end
  end.

(** At time [t] no call of [delete_file_from_index] on the store raises. *)
Definition delete_quiet (w : World) (t : nat) (file_id : string) : bool :=
  negb (lance_raises w t Connect || lance_raises w t TableNames
        || lance_raises w t OpenTable
        || lance_raises w t (DeleteWhere (where_file_id file_id))).

(** The status table after the success branch of
    [delete_indexed_file]. *)
Definition reset_pending (d : db) (file_id : string) : db :=
  match get_file_status d file_id with
  | Ok (Some _) => update_file_status d file_id PENDING
  | _ => d
  end.

Definition rows_of (st : lance) : list row :=
  match table st with Some rows => rows | None => [] end.

Definition score_le (a b : search_result) : Prop :=
  PrimFloat.leb (sr_score a) (sr_score b) = true.

Definition distance_le (a b : hit) : Prop :=
  match h_distance a, h_distance b with
  | Some x, Some y => PrimFloat.leb x y = true
  | _, _ => False
  end.

End Prop_defs.
Import Prop_defs.

(** ** Concrete stores, events and worlds used in the examples *)

Module Sample.

Definition rec_a : FileStatus := mkFileStatus "1" "a.md" "notes/a.md" SYNCED.
Definition rec_b : FileStatus := mkFileStatus "2" "b.md" "notes/b.md" PENDING.

Definition ev_a : event := mkEvent false "notes/a.md" "".
Definition ev_c : event := mkEvent false "notes/c.md" "".
Definition ev_a_to_b : event := mkEvent false "notes/a.md" "notes/b.md".
Definition ev_a_to_c : event := mkEvent false "notes/a.md" "notes/c.md".

(** A text of [n] characters. *)
Definition text_of_length (n : nat) : string :=
  string_of_list_ascii (repeat "x"%char n).

(** Files on disk: two notes and a picture; [notes/gone.md] is absent. *)
Definition disk (p : string) : option string :=
  if String.eqb p "notes/a.md" then Some "alpha"
  else if String.eqb p "notes/b.md" then Some "beta"
  else if String.eqb p "notes/pic.png" then Some "png"
  else None.

Definition unit_vectors (texts : list string) : list vector :=
  map (fun _ => [1%float; 0%float]) texts.

Definition nearest (rows : list row) (limit : nat) : list hit :=
  firstn limit
    (map (fun r => mkHit (r_text r) (r_file_path r) (r_file_id r) (r_chunk_index r)
                     (Some (PrimFloat.of_uint63 (Uint63.of_nat (r_chunk_index r)))))
       rows).

(** No [tiktoken], a healthy provider and store. *)
Definition calm : World :=
  mkWorld None
    (fun _ p => match disk p with Some _ => true | None => false end)
    (fun _ p => disk p)
    (fun _ texts => Some (unit_vectors texts))
    (fun _ _ => false)
    (fun _ rows _ limit => nearest rows limit)
    (fun _ _ => None).

(** The same world with the embedding provider down at time 0 only. *)
Definition outage : World :=
  mkWorld None
    (path_exists calm) (open_read calm)
    (fun t texts => if t =? 0 then None else Some (unit_vectors texts))
    (lance_raises calm) (lance_search calm) (status_write_raises calm).

Definition row_a (i : nat) : row := mkRow [1%float; 0%float] "alpha" "1" "notes/a.md" i.

Definition empty_index : lance := mkLance None 0.
Definition index_a : lance := mkLance (Some [row_a 0]) 0.
Definition index_aaa : lance := mkLance (Some [row_a 0; row_a 1; row_a 2]) 0.

End Sample.
Import Sample.

(** ** The status endpoints ([monitor/api.py]) *)

Module Monitor.

(** What a status endpoint answers: a body, the 422 of FastAPI's
    [Query] bounds, a 404, or an exception of the store passed on. *)
Inductive answer (A : Type) : Type :=
| Body (body : A)
| Unprocessable
| Missing (detail : string)
| Failed (e : exn).
Arguments Body {A} body.
Arguments Unprocessable {A}.
Arguments Missing {A} detail.
Arguments Failed {A} e.

(** [limit: int = Query(100, ge=1, le=1000)]; [skip] has [ge=0]. *)
Definition limit_ok (limit : nat) : bool := (1 <=? limit) && (limit <=? 1000).

(** [stmt.offset(skip).limit(limit)]. *)
Definition offset_limit {A} (skip limit : nat) (rows : list A) : list A :=
  firstn limit (skipn skip rows).

Definition get_all_files (d : db) (skip limit : nat) : answer (list FileStatus) :=
  if limit_ok limit then Body (offset_limit skip limit d) else Unprocessable.

Definition get_files_by_status (d : db) (status : FileStatusEnum) (skip limit : nat)
  : answer (list FileStatus) :=
  if limit_ok limit
  then Body (offset_limit skip limit
                 (filter (fun r => status_eqb (fs_status r) status) d))
  else Unprocessable.

Definition get_file_by_id (d : db) (file_id : string) : answer FileStatus :=
  match get_file_status d file_id with
  | Raise e => Failed e
  | Ok None => Missing ("File with id " ++ file_id ++ " not found")%string
  | Ok (Some file_status) => Body file_status
  end.

(** [FileStatusStats(status=status, count=count)]. *)
Definition get_file_count_by_status (d : db) (status : FileStatusEnum)
  : FileStatusEnum * nat :=
  (status, List.length (filter (fun r => status_eqb (fs_status r) status) d)).

End Monitor.
Import Monitor.

(** ** The observer manager ([manager.py]) *)

Module Manager.

(** The handler an observer dispatches to: one built by [set_callback]
    around a user callback, or the logging one [start] builds itself. *)
Inductive handler : Type :=
| Registered (callback : nat)
| DebugLogger.

(** A scheduled [watchdog] observer. *)
Record Observer : Type := mkObserver {
  o_handler : handler;
  o_path : string;
  o_recursive : bool
}.

Record WatchdogManager : Type := mkManager {
  m_path : string;
  m_recursive : bool;
  _observer : option Observer;
  _handler : option handler
}.

Definition set_callback (m : WatchdogManager) (callback : nat) : WatchdogManager :=
  mkManager (m_path m) (m_recursive m) (_observer m) (Some (Registered callback)).

(** [__init__]. *)
Definition init (path : string) (callback : option nat) (recursive : bool)
  : WatchdogManager :=
  let m := mkManager path recursive None None in
  match callback with
  | Some cb => set_callback m cb
  | None => m
  end.

(** [start]; [start_raises] tells whether [Observer.start] raises. *)
Definition start (start_raises : bool) (m : WatchdogManager) : WatchdogManager :=
  match _observer m with
  | Some _ => m
  | None =>
      let h := match _handler m with Some h => h | None => DebugLogger end in
      let obs := mkObserver h (m_path m) (m_recursive m) in
      if start_raises
      then mkManager (m_path m) (m_recursive m) None (_handler m)
      else mkManager (m_path m) (m_recursive m) (Some obs) (_handler m)
  end.

(** [stop]; [stop_raises] tells whether [Observer.stop] or [join]
    raises: the [finally] clause clears the observer either way. *)
Definition stop (stop_raises : bool) (m : WatchdogManager) : WatchdogManager :=
  match _observer m with
  | None => m
  | Some _ =>
      if stop_raises
      then mkManager (m_path m) (m_recursive m) None (_handler m)
      else mkManager (m_path m) (m_recursive m) None (_handler m)
  end.

Definition restart (stop_raises start_raises : bool) (m : WatchdogManager)
  : WatchdogManager :=
  start start_raises (stop stop_raises m).

(** [is_running]; [alive] is what the observer's [is_alive()] answers. *)
Definition is_running (alive : bool) (m : WatchdogManager) : bool :=
  match _observer m with
  | None => false
  | Some _ => alive
  end.

End Manager.

(** ** Further vocabulary *)

Module More_defs.

(** [''.join(l)]. *)
Definition join (l : list string) : string :=
  fold_right String.append EmptyString l.

Fixpoint has_char (c : ascii) (s : string) : bool :=
  match s with
  | EmptyString => false
  | String d r => Ascii.eqb d c || has_char c r
  end.

(** No record is marked DELETED. *)
Definition all_live (d : db) : Prop := Forall (fun r => live r = true) d.

(** The table after a sequence of notifications, handled one by one. *)
Definition run_notifications (d : db) (ns : list notification) : db :=
  fold_left (fun acc n => fst (dispatch acc n)) ns d.

(** Two tables with the same rows up to their status. *)
Definition same_but_status (r r' : FileStatus) : Prop :=
  fs_id r' = fs_id r /\ fs_name r' = fs_name r /\ fs_path r' = fs_path r.

(** The rows of the index that belong to one file. *)
Definition rows_for (file_id : string) (rows : list row) : list row :=
  filter (fun r => String.eqb (r_file_id r) file_id) rows.

(** At time [t] no call of [index_file] on the store raises for this
    data. *)
Definition add_quiet (w : World) (t : nat) (data : list row) : bool :=
  negb (lance_raises w t Connect || lance_raises w t TableNames
        || lance_raises w t CreateTable || lance_raises w t OpenTable
        || lance_raises w t (Add data)).

(** A record as [on_created] builds it. *)
Definition fresh_record (uuid : string) (ev : event) : FileStatus :=
  mkFileStatus uuid (os_path_basename (src_path ev)) (src_path ev) PENDING.

(** More sample data. *)
Definition toy_decode (l : list nat) : string :=
  string_of_list_ascii (map ascii_of_nat l).

Definition toy_codec : codec :=
  mkCodec (fun s => Ok (map nat_of_ascii (list_ascii_of_string s)))
    (fun l => Ok (toy_decode l)).

Definition calm_tokens : World :=
  mkWorld (Some (Ok toy_codec))
    (path_exists calm) (open_read calm) (embeddings_create calm)
    (lance_raises calm) (lance_search calm) (status_write_raises calm).


(** The status table refusing its first write. *)
Definition locked_table : World :=
  mkWorld None
    (path_exists calm) (open_read calm) (embeddings_create calm)
    (lance_raises calm) (lance_search calm)
    (fun t _ => if t =? 1 then Some (OtherError "OperationalError" "database is locked")
                else None).

(** Every name is the last component of its path. *)
Definition names_follow_paths (d : db) : Prop :=
  Forall (fun r => fs_name r = last_segment (fs_path r)) d.

(** The table after a sequence of CRUD statements. *)
Definition run_ops (d : db) (os : list op) : db :=
  fold_left (fun acc o => apply o acc) os d.

(** At time [t] the query cannot be embedded, or a call of
    [search_similar] on the store raises. *)
Definition search_fails (w : World) (t : nat) (query : string) (limit : nat) : bool :=
  match create_embeddings w t [query] with
  | None | Some [] => true
  | Some (qv :: _) =>
      lance_raises w t Connect || lance_raises w t TableNames
      || lance_raises w t OpenTable || lance_raises w t (Search qv limit)
  end.

(** The status [run_indexing] writes for a path, given the failed
    paths of the batch. *)
Definition verdict (failed : list string) (path : string) : FileStatusEnum :=
  if str_in path failed then ERROR else SYNCED.

(** What the second loop of [run_indexing] does to one row. *)
Definition mark_row (failed : list string) (pairs : list (string * string))
  (r : FileStatus) : FileStatus :=
  fold_left
    (fun acc pi => if has_id (snd pi) acc then set_status (verdict failed (fst pi)) acc
                   else acc)
    pairs r.

End More_defs.
Import More_defs.

(** * Properties *)

(** ** Lists, lookups and row updates *)

Section ListFacts.
Context {A : Type}.

Lemma filter_nil_iff (f : A -> bool) (l : list A) :
  filter f l = [] <-> existsb f l = false.
Proof.
  induction l as [|a l IH]; simpl; [tauto|].
  destruct (f a); simpl; [split; discriminate | exact IH].
Qed.

Lemma filter_nil_all (f : A -> bool) (l : list A) :
  filter f l = [] -> forall x, In x l -> f x = false.
Proof.
  intros H x Hx. destruct (f x) eqn:E; [|reflexivity].
  assert (Hin : In x (filter f l)) by (apply filter_In; auto).
  rewrite H in Hin. destruct Hin.
Qed.

Lemma filter_all_true (f : A -> bool) (l : list A) :
  (forall x, In x l -> f x = true) -> filter f l = l.
Proof.
  intros H. apply forallb_filter_id, forallb_forall, H.
Qed.

Lemma scalar_some (l : list A) (r : A) :
  scalar_one_or_none l = Ok (Some r) -> l = [r].
Proof.
  destruct l as [|a [|b l]]; simpl; intros H; try discriminate.
  now inversion H.
Qed.

Lemma scalar_none (l : list A) :
  scalar_one_or_none l = Ok None -> l = [].
Proof.
  destruct l as [|a [|b l]]; simpl; intros H; try discriminate. reflexivity.
Qed.

End ListFacts.

Section StoreFacts.

Lemma has_id_true i r : has_id i r = true <-> fs_id r = i.
Proof. unfold has_id. apply String.eqb_eq. Qed.

Lemma has_path_true p r : has_path p r = true <-> fs_path r = p.
Proof. unfold has_path. apply String.eqb_eq. Qed.

Lemma has_path_false p r : has_path p r = false <-> fs_path r <> p.
Proof. unfold has_path. apply String.eqb_neq. Qed.

Lemma update_where_ids c f d :
  (forall r, fs_id (f r) = fs_id r) ->
  map fs_id (update_where c f d) = map fs_id d.
Proof.
  intros Hf. unfold update_where. rewrite map_map. apply map_ext.
  intros r. destruct (c r); auto.
Qed.

Lemma update_where_statuses c f d :
  (forall r, fs_status (f r) = fs_status r) ->
  map fs_status (update_where c f d) = map fs_status d.
Proof.
  intros Hf. unfold update_where. rewrite map_map. apply map_ext.
  intros r. destruct (c r); auto.
Qed.

Lemma update_where_untouched c f d r :
  In r d -> c r = false -> In r (update_where c f d).
Proof.
  intros Hin Hc. unfold update_where. apply in_map_iff.
  exists r. rewrite Hc. auto.
Qed.

(** After a rename to a different path nothing is left at the old one. *)
Lemma rename_clears_old d old new :
  old <> new -> filter (has_path old) (rename_file_status d old new) = [].
Proof.
  intros Hne. apply filter_nil_iff.
  destruct (existsb _ _) eqn:E; [|reflexivity].
  apply existsb_exists in E. destruct E as [x [Hin Hx]].
  unfold rename_file_status, update_where in Hin.
  apply in_map_iff in Hin. destruct Hin as [r [Hr _]].
  apply has_path_true in Hx.
  destruct (has_path old r) eqn:Eo; subst x; simpl in Hx.
  - congruence.
  - apply has_path_false in Eo. congruence.
Qed.

(** The rows found at the new path are the renamed ones, when the new
    path was free. *)
Lemma rename_moves_rows d old new :
  filter (has_path new) d = [] ->
  filter (has_path new) (rename_file_status d old new)
  = map (set_path_name new (last_segment new)) (filter (has_path old) d).
Proof.
  unfold rename_file_status, update_where.
  induction d as [|a d IH]; simpl; intros Hfree; [reflexivity|].
  destruct (has_path new a) eqn:En; [discriminate|].
  destruct (has_path old a) eqn:Eo; simpl.
  - unfold has_path at 1. simpl. rewrite String.eqb_refl. f_equal. auto.
  - rewrite En. auto.
Qed.

End StoreFacts.

(** ** The watch path *)

(** C1 (as the code has it): a 'file removed' notification for a path
    with exactly one record physically deletes that record -- every row
    with its id leaves the table -- and touches no other row, so no
    status is set to DELETED by it. *)
Theorem on_deleted_removes_the_record (d : db) (ev : event) (r : FileStatus) :
  is_directory ev = false ->
  get_file_status_by_path d (src_path ev) = Ok (Some r) ->
  on_deleted d ev = (delete_file_status d (fs_id r), Ok tt)
  /\ ~ In r (fst (on_deleted d ev))
  /\ (forall r', In r' (fst (on_deleted d ev)) <-> In r' d /\ fs_id r' <> fs_id r).
Proof.
  intros Hdir Hget.
  assert (E : on_deleted d ev = (delete_file_status d (fs_id r), Ok tt)).
  { unfold on_deleted, _delete_file_status_async. now rewrite Hdir, Hget. }
  rewrite E. simpl. unfold delete_file_status, delete_where.
  split; [reflexivity|]. split.
  - intros Hin. apply filter_In in Hin. destruct Hin as [_ Hneg].
    unfold has_id in Hneg. rewrite String.eqb_refl in Hneg. discriminate.
  - intros r'. rewrite filter_In. unfold has_id.
    rewrite negb_true_iff, String.eqb_neq. tauto.
Qed.

Lemma on_deleted_removes_the_record_witness :
  on_deleted [rec_a; rec_b] ev_a = (delete_file_status [rec_a; rec_b] "1", Ok tt)
  /\ ~ In rec_a (fst (on_deleted [rec_a; rec_b] ev_a))
  /\ (forall r', In r' (fst (on_deleted [rec_a; rec_b] ev_a))
                 <-> In r' [rec_a; rec_b] /\ fs_id r' <> "1").
Proof.
  apply (on_deleted_removes_the_record [rec_a; rec_b] ev_a rec_a); reflexivity.
Defined.

(** C1, refuted as stated: the live record at the removed path is not
    kept with status DELETED; the row is gone. *)
Lemma on_deleted_keeps_no_row :
  get_file_status_by_path [rec_a] (src_path ev_a) = Ok (Some rec_a)
  /\ live rec_a = true
  /\ fst (on_deleted [rec_a] ev_a) = []
  /\ ~ (exists r', In r' (fst (on_deleted [rec_a] ev_a))
                   /\ fs_id r' = fs_id rec_a /\ fs_status r' = DELETED).
Proof.
  repeat split; try reflexivity.
  intros [r' [Hin _]]. exact Hin.
Qed.

(** C10: a 'modified' or 'deleted' notification for a path without any
    record changes nothing and raises nothing. *)
Theorem unknown_path_is_dropped (d : db) (ev : event) :
  (forall r, In r d -> fs_path r <> src_path ev) ->
  on_modified d ev = (d, Ok tt) /\ on_deleted d ev = (d, Ok tt).
Proof.
  intros Hnone.
  assert (E : filter (has_path (src_path ev)) d = []).
  { apply filter_nil_iff. destruct (existsb _ _) eqn:Ex; [|reflexivity].
    apply existsb_exists in Ex. destruct Ex as [x [Hin Hx]].
    apply has_path_true in Hx. exfalso. exact (Hnone x Hin Hx). }
  unfold on_modified, on_deleted, _update_file_status_async,
    _delete_file_status_async, get_file_status_by_path.
  rewrite E. simpl. destruct (is_directory ev); auto.
Qed.

Lemma unknown_path_is_dropped_witness :
  on_modified [rec_a; rec_b] ev_c = ([rec_a; rec_b], Ok tt)
  /\ on_deleted [rec_a; rec_b] ev_c = ([rec_a; rec_b], Ok tt).
Proof.
  apply (unknown_path_is_dropped [rec_a; rec_b] ev_c).
  intros r [H|[H|[]]]; subst r; simpl; discriminate.
Defined.

(** C9 (as the code has it): a rename old->new with old <> new, one
    record at the old path and none at the new one changes only the
    path and name of that record; afterwards the old path looks up to
    nothing and the new path to the same record. *)
Theorem rename_keeps_identity (d : db) (ev : event) (r : FileStatus) :
  is_directory ev = false ->
  src_path ev <> dest_path ev ->
  get_file_status_by_path d (src_path ev) = Ok (Some r) ->
  get_file_status_by_path d (dest_path ev) = Ok None ->
  let d' := fst (on_moved d ev) in
  snd (on_moved d ev) = Ok tt
  /\ get_file_status_by_path d' (src_path ev) = Ok None
  /\ get_file_status_by_path d' (dest_path ev)
     = Ok (Some (mkFileStatus (fs_id r) (last_segment (dest_path ev))
                   (dest_path ev) (fs_status r)))
  /\ map fs_id d' = map fs_id d
  /\ map fs_status d' = map fs_status d
  /\ (forall r0, In r0 d -> fs_path r0 <> src_path ev -> In r0 d').
Proof.
  intros Hdir Hne Hold Hnew d'.
  assert (E : on_moved d ev
              = (rename_file_status d (src_path ev) (dest_path ev), Ok tt)).
  { unfold on_moved, _rename_file_status_async. now rewrite Hdir. }
  subst d'. rewrite E. simpl.
  apply scalar_some in Hold. apply scalar_none in Hnew.
  unfold get_file_status_by_path.
  rewrite (rename_clears_old d _ _ Hne), (rename_moves_rows d _ _ Hnew), Hold.
  repeat split; try reflexivity.
  - apply update_where_ids. reflexivity.
  - apply update_where_statuses. reflexivity.
  - intros r0 Hin Hp. apply update_where_untouched; [exact Hin|].
    now apply has_path_false.
Qed.

Lemma rename_keeps_identity_witness :
  snd (on_moved [rec_a; rec_b] ev_a_to_c) = Ok tt
  /\ get_file_status_by_path (fst (on_moved [rec_a; rec_b] ev_a_to_c)) "notes/a.md"
     = Ok None
  /\ get_file_status_by_path (fst (on_moved [rec_a; rec_b] ev_a_to_c)) "notes/c.md"
     = Ok (Some (mkFileStatus "1" "c.md" "notes/c.md" SYNCED))
  /\ map fs_id (fst (on_moved [rec_a; rec_b] ev_a_to_c)) = ["1"; "2"]
  /\ map fs_status (fst (on_moved [rec_a; rec_b] ev_a_to_c)) = [SYNCED; PENDING]
  /\ (forall r0, In r0 [rec_a; rec_b] -> fs_path r0 <> "notes/a.md" ->
                 In r0 (fst (on_moved [rec_a; rec_b] ev_a_to_c))).
Proof.
  apply (rename_keeps_identity [rec_a; rec_b] ev_a_to_c rec_a);
    [reflexivity | discriminate | reflexivity | reflexivity].
Defined.

(** C9, refuted as stated: renaming a live record onto a path that
    already has a record leaves two rows there, and the lookup at the
    new path raises instead of returning the renamed record. *)
Lemma rename_onto_tracked_path :
  get_file_status_by_path [rec_a; rec_b] (src_path ev_a_to_b) = Ok (Some rec_a)
  /\ live rec_a = true
  /\ get_file_status_by_path (fst (on_moved [rec_a; rec_b] ev_a_to_b))
       (dest_path ev_a_to_b)
     = Raise MultipleResultsFound.
Proof. repeat split. Qed.

(** ** The table invariants under the CRUD statements *)

Section PathInvariant.

Lemma live_set_status s r : live (set_status s r) = negb (status_eqb s DELETED).
Proof. reflexivity. Qed.

Lemma no_live_at_spec p d : no_live_at p d = true <-> ~ In p (live_paths d).
Proof.
  unfold no_live_at, live_paths. rewrite negb_true_iff. split.
  - intros H Hin. apply in_map_iff in Hin. destruct Hin as [r [Hp Hr]].
    apply filter_In in Hr. destruct Hr as [Hr Hl].
    assert (Hex : existsb (fun r => live r && has_path p r) d = true).
    { apply existsb_exists. exists r. split; [exact Hr|].
      rewrite Hl. simpl. now apply has_path_true. }
    congruence.
  - intros H. destruct (existsb _ _) eqn:E; [|reflexivity].
    apply existsb_exists in E. destruct E as [r [Hr Hc]].
    apply andb_true_iff in Hc. destruct Hc as [Hl Hp].
    exfalso. apply H. apply in_map_iff. exists r. split.
    + now apply has_path_true.
    + apply filter_In. auto.
Qed.

(** Rewriting rows without moving them or reviving a DELETED one can
    only shrink the list of live paths. *)
Lemma live_paths_map_in f d p :
  (forall r, In r d -> fs_path (f r) = fs_path r /\ (live (f r) = true -> live r = true)) ->
  In p (live_paths (map f d)) -> In p (live_paths d).
Proof.
  unfold live_paths. intros Hf Hin.
  apply in_map_iff in Hin. destruct Hin as [x [Hp Hx]].
  apply filter_In in Hx. destruct Hx as [Hx Hl].
  apply in_map_iff in Hx. destruct Hx as [r [Hr Hrd]]. subst x.
  destruct (Hf r Hrd) as [Hpath Hlive].
  apply in_map_iff. exists r. split; [congruence|].
  apply filter_In. auto.
Qed.

Lemma live_paths_map_nodup f d :
  (forall r, In r d -> fs_path (f r) = fs_path r /\ (live (f r) = true -> live r = true)) ->
  NoDup (live_paths d) -> NoDup (live_paths (map f d)).
Proof.
  induction d as [|a d IH]; intros Hf Hnd; [constructor|].
  assert (Hf' : forall r, In r d ->
            fs_path (f r) = fs_path r /\ (live (f r) = true -> live r = true))
    by (intros r Hr; apply Hf; now right).
  destruct (Hf a (or_introl eq_refl)) as [Hpa Hla].
  change (live_paths (map f (a :: d)))
    with (map fs_path (if live (f a) then f a :: filter live (map f d)
                       else filter live (map f d))).
  unfold live_paths in Hnd. simpl in Hnd.
  destruct (live (f a)) eqn:Elf.
  - rewrite (Hla eq_refl) in Hnd. simpl in Hnd. inversion Hnd; subst.
    simpl. constructor.
    + rewrite Hpa. intros Hin. apply (live_paths_map_in f d _ Hf') in Hin. auto.
    + apply IH; auto.
  - apply IH; auto. destruct (live a); [now inversion Hnd | exact Hnd].
Qed.

Lemma live_paths_filter_in c d p :
  In p (live_paths (filter c d)) -> In p (live_paths d).
Proof.
  unfold live_paths. intros Hin. apply in_map_iff in Hin.
  destruct Hin as [r [Hp Hr]]. apply filter_In in Hr. destruct Hr as [Hr Hl].
  apply filter_In in Hr. destruct Hr as [Hr _].
  apply in_map_iff. exists r. split; [exact Hp|]. apply filter_In. auto.
Qed.

Lemma live_paths_filter_nodup c d :
  NoDup (live_paths d) -> NoDup (live_paths (filter c d)).
Proof.
  induction d as [|a d IH]; intros Hnd; [constructor|].
  unfold live_paths in Hnd. simpl in Hnd. simpl.
  assert (Hd : NoDup (live_paths d))
    by (destruct (live a); [now inversion Hnd | exact Hnd]).
  destruct (c a); [|auto].
  unfold live_paths. simpl. destruct (live a); [|apply IH; auto].
  simpl. inversion Hnd; subst. constructor; [|apply IH; auto].
  intros Hin. apply live_paths_filter_in in Hin. auto.
Qed.

Lemma live_paths_snoc d r :
  live_paths (d ++ [r]) = live_paths d ++ (if live r then [fs_path r] else []).
Proof.
  unfold live_paths. rewrite filter_app, map_app. simpl. now destruct (live r).
Qed.

Lemma insert_keeps_paths d r :
  NoDup (live_paths d) ->
  negb (live r) || no_live_at (fs_path r) d = true ->
  NoDup (live_paths (d ++ [r])).
Proof.
  intros Hnd Hsafe. rewrite live_paths_snoc.
  destruct (live r) eqn:El; [|now rewrite app_nil_r].
  simpl in Hsafe. apply no_live_at_spec in Hsafe.
  apply NoDup_app; [exact Hnd | repeat constructor; intros [] |].
  intros a Ha [Hb|[]]. subst a. auto.
Qed.

Lemma rename_live_paths d old new :
  live_paths (rename_file_status d old new)
  = map (fun p => if String.eqb p old then new else p) (live_paths d).
Proof.
  unfold rename_file_status, update_where, live_paths.
  induction d as [|a d IH]; [reflexivity|]. simpl.
  assert (El : live (if has_path old a
                     then set_path_name new (last_segment new) a else a) = live a)
    by (destruct (has_path old a); reflexivity).
  rewrite El. destruct (live a); [|exact IH].
  simpl. rewrite IH. f_equal. unfold has_path. now destruct (String.eqb (fs_path a) old).
Qed.

Lemma rename_keeps_paths d old new :
  NoDup (live_paths d) ->
  String.eqb old new || no_live_at new d = true ->
  NoDup (live_paths (rename_file_status d old new)).
Proof.
  intros Hnd Hsafe. rewrite rename_live_paths.
  apply Injective_map_NoDup_in; [|exact Hnd].
  intros x y Hx Hy.
  apply orb_true_iff in Hsafe. destruct Hsafe as [Heq|Hfree].
  - apply String.eqb_eq in Heq. subst new.
    destruct (String.eqb x old) eqn:Ex, (String.eqb y old) eqn:Ey;
      try apply String.eqb_eq in Ex; try apply String.eqb_eq in Ey; congruence.
  - apply no_live_at_spec in Hfree.
    destruct (String.eqb x old) eqn:Ex, (String.eqb y old) eqn:Ey;
      try apply String.eqb_eq in Ex; try apply String.eqb_eq in Ey;
      intros E; subst; try congruence; contradiction.
Qed.

Lemma update_keeps_paths d i s :
  NoDup (live_paths d) -> revives i s d = false ->
  NoDup (live_paths (update_where (has_id i) (set_status s) d)).
Proof.
  intros Hnd Hrev. unfold update_where. apply live_paths_map_nodup; [|exact Hnd].
  intros r Hr. destruct (has_id i r) eqn:Ei; [|auto].
  split; [reflexivity|]. rewrite live_set_status. intros Hs.
  unfold revives in Hrev. rewrite Hs in Hrev. simpl in Hrev.
  destruct (live r) eqn:El; [reflexivity|].
  assert (Hex : existsb (fun r => has_id i r && negb (live r)) d = true).
  { apply existsb_exists. exists r. rewrite Ei, El. auto. }
  congruence.
Qed.

Lemma bulk_update_keeps_paths us : forall d,
  NoDup (live_paths d) -> bulk_revives us d = false ->
  NoDup (live_paths (bulk_update_file_statuses d us)).
Proof.
  unfold bulk_update_file_statuses.
  induction us as [|[i s] us IH]; intros d Hnd Hrev; [exact Hnd|].
  simpl in *. apply orb_false_iff in Hrev. destruct Hrev as [H1 H2].
  apply IH; [|exact H2]. now apply update_keeps_paths.
Qed.

Lemma bulk_update_ids us : forall d,
  map fs_id (bulk_update_file_statuses d us) = map fs_id d.
Proof.
  unfold bulk_update_file_statuses.
  induction us as [|[i s] us IH]; intros d; [reflexivity|].
  simpl. rewrite IH. now apply update_where_ids.
Qed.

Lemma insert_cases d r :
  fst (create_file_status d r)
  = if existsb (has_id (fs_id r)) d then d else d ++ [r].
Proof. unfold create_file_status. now destruct (existsb _ _). Qed.

Lemma get_or_create_cases d r :
  fst (get_or_create_file_status d r)
  = if existsb (has_id (fs_id r)) d then d else d ++ [r].
Proof.
  unfold get_or_create_file_status, get_file_status.
  destruct (existsb (has_id (fs_id r)) d) eqn:E.
  - destruct (filter (has_id (fs_id r)) d) as [|a [|b l]] eqn:F; simpl; try reflexivity.
    apply filter_nil_iff in F. congruence.
  - apply filter_nil_iff in E. rewrite E. simpl. rewrite insert_cases.
    apply filter_nil_iff in E. now rewrite E.
Qed.

Lemma keep_all (d : db) : filter (fun _ : FileStatus => negb false) d = d.
Proof. apply filter_all_true. reflexivity. Qed.

End PathInvariant.

(** C2 (as the code has it): every mutating statement of the store
    keeps the ids of the rows it leaves in place, in order, and adds at
    most the inserted row.  [on_created] is the insert of a PENDING
    record, made without any lookup by path: with a fresh id it always
    appends, and "at most one live record per path" then holds
    afterwards exactly when no live record sat at the path.  In
    general the invariant survives every operation whose insert or
    rename targets a path free of live records (or renames a path onto
    itself) and whose status update revives no DELETED row. *)
Theorem store_ops_keep_paths_and_ids (o : op) (d : db) :
  map fs_id (apply o d)
  = map fs_id (filter (fun r => negb (removes o r)) d) ++ map fs_id (adds o d)
  /\ (one_live_per_path d -> path_safe o d = true -> one_live_per_path (apply o d))
  /\ (forall uuid ev,
        is_directory ev = false ->
        fst (on_created uuid d ev)
        = apply (Create (mkFileStatus uuid (os_path_basename (src_path ev))
                           (src_path ev) PENDING)) d
        /\ (~ In uuid (map fs_id d) ->
            on_created uuid d ev
            = (d ++ [mkFileStatus uuid (os_path_basename (src_path ev))
                       (src_path ev) PENDING], Ok tt)
            /\ (one_live_per_path d ->
                (one_live_per_path (fst (on_created uuid d ev))
                 <-> no_live_at (src_path ev) d = true)))).
Proof.
  unfold one_live_per_path. split; [|split].
  - destruct o as [r|r|i s|us|i|ids|s|old new|i n]; simpl;
      try rewrite keep_all; try rewrite app_nil_r; try reflexivity.
    + rewrite insert_cases. destruct (existsb _ _); simpl;
        [now rewrite app_nil_r | now rewrite map_app].
    + rewrite get_or_create_cases. destruct (existsb _ _); simpl;
        [now rewrite app_nil_r | now rewrite map_app].
    + now apply update_where_ids.
    + apply bulk_update_ids.
    + now apply update_where_ids.
    + now apply update_where_ids.
  - intros Hnd Hsafe.
    destruct o as [r|r|i s|us|i|ids|s|old new|i n]; simpl in *.
    + rewrite insert_cases. destruct (existsb _ _); [exact Hnd|].
      now apply insert_keeps_paths.
    + rewrite get_or_create_cases. destruct (existsb _ _); [exact Hnd|].
      now apply insert_keeps_paths.
    + apply update_keeps_paths; [exact Hnd|]. now apply negb_true_iff.
    + apply bulk_update_keeps_paths; [exact Hnd|]. now apply negb_true_iff.
    + now apply live_paths_filter_nodup.
    + now apply live_paths_filter_nodup.
    + now apply live_paths_filter_nodup.
    + now apply rename_keeps_paths.
    + unfold update_file_status_name, update_where.
      apply live_paths_map_nodup; [|exact Hnd].
      intros r _. destruct (has_id i r); auto.
  - intros uuid ev Hdir. split.
    + unfold on_created, _create_file_status_async.
      rewrite Hdir. simpl. now destruct (create_file_status d _) as [d' [x|e]].
    + intros Hfresh.
      assert (Ex : existsb (has_id uuid) d = false).
      { destruct (existsb (has_id uuid) d) eqn:E; [|reflexivity].
        apply existsb_exists in E. destruct E as [x [Hx Hi]].
        apply has_id_true in Hi. exfalso. apply Hfresh.
        apply in_map_iff. eauto. }
      assert (E : on_created uuid d ev
                  = (d ++ [mkFileStatus uuid (os_path_basename (src_path ev))
                             (src_path ev) PENDING], Ok tt)).
      { unfold on_created, _create_file_status_async, create_file_status.
        rewrite Hdir. simpl. now rewrite Ex. }
      rewrite E. split; [reflexivity|]. intros Hnd. simpl. split.
      * intros Hafter. apply no_live_at_spec.
        rewrite live_paths_snoc in Hafter. simpl in Hafter.
        apply NoDup_remove_2 in Hafter. now rewrite app_nil_r in Hafter.
      * intros Hfree. apply insert_keeps_paths; [exact Hnd|].
        simpl. exact Hfree.
Qed.

Lemma store_ops_keep_paths_and_ids_witness :
  map fs_id (apply (Rename "notes/a.md" "notes/c.md") [rec_a; rec_b]) = ["1"; "2"]
  /\ one_live_per_path (apply (Rename "notes/a.md" "notes/c.md") [rec_a; rec_b])
  /\ on_created "3" [rec_a; rec_b] ev_a
     = ([rec_a; rec_b; mkFileStatus "3" "a.md" "notes/a.md" PENDING], Ok tt)
  /\ (one_live_per_path (fst (on_created "3" [rec_a; rec_b] ev_c))
      <-> no_live_at "notes/c.md" [rec_a; rec_b] = true).
Proof.
  assert (Hinv : one_live_per_path [rec_a; rec_b]).
  { repeat constructor; simpl; intuition discriminate. }
  assert (Hfresh : ~ In "3" (map fs_id [rec_a; rec_b])).
  { simpl. intuition discriminate. }
  destruct (store_ops_keep_paths_and_ids (Rename "notes/a.md" "notes/c.md")
              [rec_a; rec_b]) as [H1 [H2 H3]].
  split; [exact H1|]. split; [apply H2; [exact Hinv | reflexivity]|].
  split.
  - destruct (H3 "3" ev_a eq_refl) as [_ H4]. destruct (H4 Hfresh) as [H5 _].
    exact H5.
  - destruct (H3 "3" ev_c eq_refl) as [_ H4]. destruct (H4 Hfresh) as [_ H6].
    exact (H6 Hinv).
Defined.

(** C2, refuted as stated: [on_created] checks no precondition, and a
    second 'file appears' for a path with a live record leaves two live
    records on that path. *)
Lemma on_created_twice_breaks_invariant :
  one_live_per_path [rec_a]
  /\ no_live_at (src_path ev_a) [rec_a] = false
  /\ on_created "9" [rec_a] ev_a
     = ([rec_a; mkFileStatus "9" "a.md" "notes/a.md" PENDING], Ok tt)
  /\ ~ one_live_per_path (fst (on_created "9" [rec_a] ev_a)).
Proof.
  split; [repeat constructor; simpl; tauto|].
  split; [reflexivity|]. split; [reflexivity|].
  intros H. inversion H as [|x l Hnotin _]; subst. apply Hnotin. now left.
Qed.

(** ** Chunking *)

Section Chunking.

(** [range_loop] yields the multiples of the step below the bound. *)
Lemma range_loop_spec step : 0 < step -> forall fuel i stop,
  stop - i <= fuel ->
  range_loop fuel i stop step
  = map (fun k => i + k * step) (seq 0 (ceil_div (stop - i) step)).
Proof.
  intros Hstep. unfold ceil_div.
  induction fuel as [|fuel IH]; intros i stop Hfuel.
  - replace (stop - i) with 0 by lia. simpl.
    rewrite Nat.div_small by lia. reflexivity.
  - simpl. destruct (i <? stop) eqn:E.
    + apply Nat.ltb_lt in E.
      rewrite IH by lia.
      assert (Hc : (stop - i + (step - 1)) / step
                   = S ((stop - (i + step) + (step - 1)) / step)).
      { destruct (Nat.le_gt_cases step (stop - i)) as [Hge|Hlt].
        - replace (stop - i + (step - 1))
            with ((stop - (i + step) + (step - 1)) + 1 * step) by lia.
          rewrite Nat.div_add by lia. lia.
        - replace (stop - (i + step)) with 0 by lia. simpl.
          rewrite (Nat.div_small (step - 1)) by lia.
          symmetry. apply Nat.div_unique with (r := stop - i - 1). lia. lia. }
      rewrite Hc. simpl. f_equal; [lia|].
      rewrite <- seq_shift, map_map. apply map_ext. intros k. lia.
    + apply Nat.ltb_ge in E. replace (stop - i) with 0 by lia. simpl.
      rewrite Nat.div_small by lia. reflexivity.
Qed.

Lemma substring_length s : forall i n,
  String.length (substring i n s) = Nat.min n (String.length s - i).
Proof.
  induction s as [|c s IH]; intros i n.
  - destruct i, n; reflexivity.
  - destruct i as [|i].
    + destruct n as [|n]; [reflexivity|]. simpl. rewrite IH. now rewrite Nat.sub_0_r.
    + simpl. apply IH.
Qed.

Lemma substring_empty i n : substring i n EmptyString = EmptyString.
Proof. destruct i, n; reflexivity. Qed.

(** A slice of a slice is a slice of the text. *)
Lemma substring_substring s : forall i n a m,
  a + m <= n -> substring a m (substring i n s) = substring (i + a) m s.
Proof.
  induction s as [|c s IH]; intros i n a m Hle.
  - now rewrite !substring_empty.
  - destruct i as [|i].
    + destruct n as [|n].
      * assert (a = 0) by lia. assert (m = 0) by lia. subst. reflexivity.
      * simpl. destruct a as [|a].
        -- destruct m as [|m]; [reflexivity|]. simpl. f_equal.
           apply (IH 0 n 0 m). lia.
        -- simpl. apply (IH 0 n a m). lia.
    + simpl. apply IH. exact Hle.
Qed.

End Chunking.

Section CharWindows.

(** [ceil_div a b] is the least [n] with [a <= n * b]. *)
Lemma ceil_div_spec a b : 0 < b -> a <= ceil_div a b * b < a + b.
Proof.
  intros Hb. unfold ceil_div.
  pose proof (Nat.div_mod (a + (b - 1)) b ltac:(lia)) as Hdm.
  pose proof (Nat.mod_upper_bound (a + (b - 1)) b ltac:(lia)) as Hub.
  nia.
Qed.

Lemma below_ceil_div a b k : 0 < b -> k < ceil_div a b -> k * b < a.
Proof.
  intros Hb Hk. pose proof (ceil_div_spec a b Hb) as [_ Hhi]. nia.
Qed.

(** In character mode the windows start at the multiples of
    [chunk_size - overlap] below the length of the text. *)
Lemma char_windows_closed_form (w : World) (text : string) (N M : nat) :
  tiktoken w = None -> M < N ->
  chunk_text w text N M
  = Ok (map (fun k => substring (k * (N - M)) N text)
          (seq 0 (ceil_div (String.length text) (N - M)))).
Proof.
  intros Hmode Hlt. unfold chunk_text, range_by. rewrite Hmode.
  assert (Hc : Nat.compare N M = Gt) by (apply Nat.compare_gt_iff; exact Hlt).
  rewrite Hc. rewrite range_loop_spec by lia.
  rewrite Nat.sub_0_r, map_map. reflexivity.
Qed.

Lemma nth_error_map_seq {B} (f : nat -> B) n k b :
  nth_error (map f (seq 0 n)) k = Some b -> k < n /\ b = f k.
Proof.
  rewrite nth_error_map, nth_error_seq.
  destruct (k <? n) eqn:E; simpl; intros H; [|discriminate].
  apply Nat.ltb_lt in E. inversion H. auto.
Qed.

(** Two consecutive windows share the tail of the first one: as many
    units as the overlap, or the whole second window if it is shorter. *)
Lemma consecutive_windows_share (text : string) (N M k : nat) :
  M < N -> S k * (N - M) < String.length text ->
  let a := substring (k * (N - M)) N text in
  let b := substring (S k * (N - M)) N text in
  window_overlap (N - M) a = substring 0 (Nat.min M (String.length b)) b
  /\ String.length (window_overlap (N - M) a) = Nat.min M (String.length b).
Proof.
  intros Hlt Hin a b.
  assert (Hla : String.length a = Nat.min N (String.length text - k * (N - M)))
    by apply substring_length.
  assert (Hlb : String.length b = Nat.min N (String.length text - S k * (N - M)))
    by apply substring_length.
  assert (Hov : String.length a - (N - M) = Nat.min M (String.length b)) by lia.
  unfold window_overlap. rewrite Hov. split.
  - unfold a, b. rewrite !substring_substring by lia. f_equal. lia.
  - rewrite substring_length. lia.
Qed.

End CharWindows.

(** C3 (as the code has it): in character-fallback mode with window
    N = 1000 and overlap M = 200, a text of length L gives exactly
    ceil(L / (N - M)) windows, each of length at most N; consecutive
    windows share exactly min(M, length of the later window) units --
    M units unless the later (final) window is shorter than M, in which
    case it lies wholly inside the earlier one. *)
Theorem chunk_text_char_windows (w : World) (text : string) :
  tiktoken w = None ->
  exists chunks,
    chunk_text w text CHUNK_SIZE CHUNK_OVERLAP = Ok chunks
    /\ List.length chunks
       = ceil_div (String.length text) (CHUNK_SIZE - CHUNK_OVERLAP)
    /\ Forall (fun c => String.length c <= CHUNK_SIZE) chunks
    /\ (forall k a b,
          nth_error chunks k = Some a -> nth_error chunks (S k) = Some b ->
          window_overlap (CHUNK_SIZE - CHUNK_OVERLAP) a
          = substring 0 (Nat.min CHUNK_OVERLAP (String.length b)) b
          /\ String.length (window_overlap (CHUNK_SIZE - CHUNK_OVERLAP) a)
             = Nat.min CHUNK_OVERLAP (String.length b)).
Proof.
  intros Hmode.
  assert (Hlt : CHUNK_OVERLAP < CHUNK_SIZE) by (apply Nat.ltb_lt; reflexivity).
  generalize dependent CHUNK_SIZE. generalize dependent CHUNK_OVERLAP.
  intros M N Hlt.
  eexists. split; [apply char_windows_closed_form; assumption|].
  split; [now rewrite length_map, length_seq|]. split.
  - apply Forall_forall. intros c Hc. apply in_map_iff in Hc.
    destruct Hc as [k [Hk _]]. subst c. rewrite substring_length. lia.
  - intros k a b Ha Hb.
    apply nth_error_map_seq in Ha. apply nth_error_map_seq in Hb.
    destruct Ha as [_ Ha], Hb as [Hk Hb]. subst a b.
    apply consecutive_windows_share; [exact Hlt|].
    apply below_ceil_div; [lia | exact Hk].
Qed.

Lemma chunk_text_char_windows_witness :
  exists chunks,
    chunk_text calm (text_of_length 5) CHUNK_SIZE CHUNK_OVERLAP = Ok chunks
    /\ List.length chunks
       = ceil_div (String.length (text_of_length 5)) (CHUNK_SIZE - CHUNK_OVERLAP)
    /\ Forall (fun c => String.length c <= CHUNK_SIZE) chunks
    /\ (forall k a b,
          nth_error chunks k = Some a -> nth_error chunks (S k) = Some b ->
          window_overlap (CHUNK_SIZE - CHUNK_OVERLAP) a
          = substring 0 (Nat.min CHUNK_OVERLAP (String.length b)) b
          /\ String.length (window_overlap (CHUNK_SIZE - CHUNK_OVERLAP) a)
             = Nat.min CHUNK_OVERLAP (String.length b)).
Proof.
  apply (chunk_text_char_windows calm (text_of_length 5)). reflexivity.
Defined.

(** C3, refuted as stated: a text of 900 characters gives two windows,
    the second of 100 characters only; they share 100 units, not 200. *)
Lemma short_last_window_overlap :
  chunk_text calm (text_of_length 900) CHUNK_SIZE CHUNK_OVERLAP
  = Ok [text_of_length 900; text_of_length 100]
  /\ String.length
       (window_overlap (CHUNK_SIZE - CHUNK_OVERLAP) (text_of_length 900)) = 100
  /\ String.length
       (window_overlap (CHUNK_SIZE - CHUNK_OVERLAP) (text_of_length 900))
     <> CHUNK_OVERLAP.
Proof.
  split; [vm_compute; reflexivity|].
  split; [vm_compute; reflexivity|].
  vm_compute. intros H.
  apply (f_equal (fun n => Nat.leb n 100)) in H. vm_compute in H. discriminate.
Qed.

(** ** The batch loop *)

Section Batch.
Variable w : World.

Lemma index_file_ticks st p i : clock (snd (index_file w st p i)) = S (clock st).
Proof.
  unfold index_file.
  destruct (read_file_content _ _ _) as [content|]; [|reflexivity].
  destruct (negb (str_truthy content)); [reflexivity|].
  destruct (chunk_text _ _ _ _) as [[|c cs]|e]; try reflexivity.
  destruct (create_embeddings _ _ _) as [embeddings|]; [|reflexivity].
  destruct (_ || _); [reflexivity|].
  destruct (table (tick st)) as [rows|].
  - destruct (lance_raises w (clock st) OpenTable); [reflexivity|].
    destruct (lance_raises w (clock st) (Add _)); reflexivity.
  - destruct (lance_raises w (clock st) CreateTable); [reflexivity|].
    destruct (lance_raises w (clock st) (Add _)); reflexivity.
Qed.

Lemma lance_after_clock pairs : forall st,
  clock (lance_after w st pairs) = clock st + List.length pairs.
Proof.
  induction pairs as [|[p i] pairs IH]; intros st; simpl; [lia|].
  rewrite IH, index_file_ticks. lia.
Qed.

Lemma batch_trace_length pairs : forall st,
  List.length (batch_trace w st pairs) = List.length pairs.
Proof.
  induction pairs as [|[p i] pairs IH]; intros st; simpl; [reflexivity|].
  now rewrite IH.
Qed.

Lemma trace_split (tr : list (string * bool)) :
  List.length (succeeded_of tr) + List.length (failed_of tr) = List.length tr.
Proof.
  unfold succeeded_of, failed_of. rewrite !length_map.
  induction tr as [|[p ok] tr IH]; simpl; [reflexivity|].
  destruct ok; simpl; lia.
Qed.

Lemma failed_of_in (tr : list (string * bool)) p :
  In p (failed_of tr) <-> In (p, false) tr.
Proof.
  unfold failed_of. rewrite in_map_iff. split.
  - intros [[q ok] [Hq Hin]]. apply filter_In in Hin. destruct Hin as [Hin Hok].
    simpl in *. subst q. destruct ok; [discriminate | exact Hin].
  - intros Hin. exists (p, false). split; [reflexivity|].
    apply filter_In. auto.
Qed.

(** The accumulators of the loop, read off the trace. *)
Lemma batch_fold pairs : forall a,
  let a' := fold_left (batch_step w) pairs a in
  let tr := batch_trace w (acc_lance a) pairs in
  acc_lance a' = lance_after w (acc_lance a) pairs
  /\ failed_acc a' = failed_acc a ++ failed_of tr
  /\ fail_count a' = fail_count a + List.length (failed_of tr)
  /\ success_count a' = success_count a + List.length (succeeded_of tr).
Proof.
  induction pairs as [|[p i] pairs IH]; intros a; simpl.
  - rewrite app_nil_r. repeat split; lia.
  - specialize (IH (batch_step w a (p, i))). simpl in IH.
    unfold batch_step in *. simpl in *.
    destruct (index_file w (acc_lance a) p i) as [[|] st'] eqn:E; simpl in *;
      destruct IH as [H1 [H2 [H3 H4]]]; rewrite H1, H2, H3, H4;
      unfold failed_of, succeeded_of; simpl;
      repeat split; try lia.
    now rewrite <- app_assoc.
Qed.

(** [index_files] on sequences of equal length never raises; its
    dictionary is the summary of the trace. *)
Lemma index_files_trace st paths ids :
  List.length paths = List.length ids ->
  index_files w st paths (Some ids)
  = (Ok (mkBatch (List.length paths)
           (List.length (succeeded_of (batch_trace w st (combine paths ids))))
           (List.length (failed_of (batch_trace w st (combine paths ids))))
           (failed_of (batch_trace w st (combine paths ids)))),
     lance_after w st (combine paths ids)).
Proof.
  intros Hlen. unfold index_files.
  assert (E : (List.length paths =? List.length ids) = true)
    by now apply Nat.eqb_eq.
  rewrite E. simpl.
  destruct (batch_fold (combine paths ids) (mkAcc 0 0 [] st)) as [H1 [H2 [H3 H4]]].
  simpl in *. now rewrite H1, H2, H3, H4.
Qed.

(** The outcome at position [k] is what [index_file] answers in the
    store left by the first [k] files, at time [clock st + k]. *)
Lemma batch_trace_nth pairs : forall st k p i,
  nth_error pairs k = Some (p, i) ->
  nth_error (batch_trace w st pairs) k
  = Some (p, fst (index_file w (lance_after w st (firstn k pairs)) p i)).
Proof.
  induction pairs as [|[q j] pairs IH]; intros st k p i Hk.
  - destruct k; discriminate.
  - destruct k as [|k]; simpl in *.
    + now inversion Hk.
    + now apply IH.
Qed.

Lemma combine_nth (paths ids : list string) : forall k p,
  List.length paths = List.length ids -> nth_error paths k = Some p ->
  exists i, nth_error (combine paths ids) k = Some (p, i).
Proof.
  revert ids. induction paths as [|q paths IH]; intros ids k p Hlen Hk.
  - destruct k; discriminate.
  - destruct ids as [|j ids]; [discriminate|].
    destruct k as [|k]; simpl in *.
    + inversion Hk. eauto.
    + apply IH; [lia | exact Hk].
Qed.

Lemma firstn_clock pairs st k p i :
  nth_error pairs k = Some (p, i) ->
  clock (lance_after w st (firstn k pairs)) = clock st + k.
Proof.
  intros Hk. rewrite lance_after_clock, length_firstn.
  assert (k < List.length pairs) by (apply nth_error_Some; congruence). lia.
Qed.

(** A file that is gone or has a foreign extension is answered with
    [False], the index untouched. *)
Lemma index_file_not_indexable st p i :
  not_indexable w (clock st) p = true -> index_file w st p i = (false, tick st).
Proof.
  unfold not_indexable, index_file, read_file_content. intros H.
  destruct (path_exists w (clock st) (path_str p)); cbn [negb orb] in *;
    [|reflexivity].
  apply negb_true_iff in H. now rewrite H.
Qed.

Lemma index_file_unreadable st p i :
  unreadable_or_empty w (clock st) p = true -> index_file w st p i = (false, tick st).
Proof.
  unfold unreadable_or_empty, index_file, read_file_content. intros H.
  apply andb_true_iff in H. destruct H as [H Hread].
  apply andb_true_iff in H. destruct H as [Hex Hsuf].
  rewrite Hex, Hsuf. cbn [negb].
  destruct (open_read w (clock st) (path_str p)) as [content|]; [|reflexivity].
  destruct (str_truthy content); cbn [negb orb] in *; [|reflexivity].
  destruct (chunk_text w content CHUNK_SIZE CHUNK_OVERLAP) as [[|c cs]|e];
    try discriminate. reflexivity.
Qed.

Lemma index_file_embedding_fails st p i :
  embedding_fails w (clock st) p = true -> index_file w st p i = (false, tick st).
Proof.
  unfold embedding_fails, index_file. intros H.
  destruct (read_file_content w (clock st) p) as [content|]; [|discriminate].
  destruct (str_truthy content); cbn [negb andb] in *; [|discriminate].
  destruct (chunk_text w content CHUNK_SIZE CHUNK_OVERLAP) as [[|c cs]|e];
    try discriminate.
  destruct (create_embeddings w (clock st) (c :: cs)); [discriminate | reflexivity].
Qed.

(** Whatever makes [index_file] answer [False] at position [k] puts
    the path in [failed_files]. *)
Lemma failed_at_position st paths ids k p :
  List.length paths = List.length ids ->
  nth_error paths k = Some p ->
  (forall stk i, clock stk = clock st + k -> fst (index_file w stk p i) = false) ->
  In p (failed_of (batch_trace w st (combine paths ids))).
Proof.
  intros Hlen Hk Hfalse.
  destruct (combine_nth paths ids k p Hlen Hk) as [i Hi].
  apply failed_of_in.
  pose proof (batch_trace_nth (combine paths ids) st k p i Hi) as Htr.
  rewrite Hfalse in Htr by (eapply firstn_clock; exact Hi).
  eapply nth_error_In. exact Htr.
Qed.

End Batch.

(** C7: a batch over n path/id pairs returns total = n,
    success + failed = total, len(failed_files) = failed, and
    failed_files lists exactly, in order, the paths [index_file]
    answered [False] for. *)
Theorem index_files_accounting (w : World) (st : lance) (paths ids : list string) :
  List.length paths = List.length ids ->
  exists res st',
    index_files w st paths (Some ids) = (Ok res, st')
    /\ total res = List.length paths
    /\ success res + failed res = total res
    /\ List.length (failed_files res) = failed res
    /\ failed_files res = failed_of (batch_trace w st (combine paths ids))
    /\ (forall p, In p (failed_files res)
                  <-> In (p, false) (batch_trace w st (combine paths ids))).
Proof.
  intros Hlen. do 2 eexists. split; [apply index_files_trace; exact Hlen|].
  simpl. repeat split.
  - rewrite trace_split, batch_trace_length, length_combine. lia.
  - apply failed_of_in.
  - apply failed_of_in.
Qed.

Lemma index_files_accounting_witness :
  exists res st',
    index_files calm empty_index ["notes/a.md"; "notes/gone.md"; "notes/b.md"]
      (Some ["1"; "7"; "2"]) = (Ok res, st')
    /\ total res = 3
    /\ success res + failed res = total res
    /\ List.length (failed_files res) = failed res
    /\ failed_files res
       = failed_of (batch_trace calm empty_index
                      (combine ["notes/a.md"; "notes/gone.md"; "notes/b.md"]
                         ["1"; "7"; "2"]))
    /\ (forall p, In p (failed_files res)
                  <-> In (p, false)
                        (batch_trace calm empty_index
                           (combine ["notes/a.md"; "notes/gone.md"; "notes/b.md"]
                              ["1"; "7"; "2"]))).
Proof.
  apply (index_files_accounting calm empty_index
           ["notes/a.md"; "notes/gone.md"; "notes/b.md"] ["1"; "7"; "2"]).
  reflexivity.
Defined.

(** C5 (as the code has it): in a batch, a file that no longer exists
    or whose extension is outside the allow-list leaves the vector
    index untouched but is recorded as failed, exactly like a file that
    exists with an allowed extension and cannot be read or yields no
    chunk. *)
Theorem skipped_files_are_recorded_failed
  (w : World) (st : lance) (paths ids : list string) (k : nat) (p : string) :
  List.length paths = List.length ids ->
  nth_error paths k = Some p ->
  not_indexable w (clock st + k) p = true
  \/ unreadable_or_empty w (clock st + k) p = true ->
  exists res st',
    index_files w st paths (Some ids) = (Ok res, st')
    /\ In p (failed_files res)
    /\ 0 < failed res
    /\ (forall stk i, clock stk = clock st + k ->
          index_file w stk p i = (false, tick stk)).
Proof.
  intros Hlen Hk Hbad.
  assert (Hone : forall stk i, clock stk = clock st + k ->
                   index_file w stk p i = (false, tick stk)).
  { intros stk i Hc. rewrite <- Hc in Hbad. destruct Hbad as [H|H].
    - now apply index_file_not_indexable.
    - now apply index_file_unreadable. }
  assert (Hin : In p (failed_of (batch_trace w st (combine paths ids)))).
  { apply (failed_at_position w st paths ids k p Hlen Hk).
    intros stk i Hc. now rewrite Hone. }
  do 2 eexists. split; [apply index_files_trace; exact Hlen|].
  simpl. split; [exact Hin|]. split; [|exact Hone].
  destruct (failed_of _); [destruct Hin | simpl; lia].
Qed.

Lemma skipped_files_are_recorded_failed_witness :
  exists res st',
    index_files calm empty_index ["notes/a.md"; "notes/pic.png"] (Some ["1"; "5"])
    = (Ok res, st')
    /\ In "notes/pic.png" (failed_files res)
    /\ 0 < failed res
    /\ (forall stk i, clock stk = clock empty_index + 1 ->
          index_file calm stk "notes/pic.png" i = (false, tick stk)).
Proof.
  apply (skipped_files_are_recorded_failed calm empty_index
           ["notes/a.md"; "notes/pic.png"] ["1"; "5"] 1 "notes/pic.png");
    [reflexivity | reflexivity | left; reflexivity].
Defined.

(** C5, refuted as stated: a missing file and a file with a foreign
    extension are both counted in [failed] and listed in
    [failed_files]. *)
Lemma missing_and_foreign_files_fail :
  not_indexable calm 0 "notes/gone.md" = true
  /\ not_indexable calm 1 "notes/pic.png" = true
  /\ fst (index_files calm empty_index ["notes/gone.md"; "notes/pic.png"]
            (Some ["8"; "9"]))
     = Ok (mkBatch 2 0 2 ["notes/gone.md"; "notes/pic.png"]).
Proof. repeat split. Qed.

(** C4 (as the code has it): an embedding call that raises is caught
    inside [index_file]; the batch does not raise, that file alone is
    recorded as failed with the index untouched, and every file of the
    batch, before or after it, gets the outcome [index_file] gives it. *)
Theorem embedding_failure_stays_in_its_file
  (w : World) (st : lance) (paths ids : list string) (k : nat) (p : string) :
  List.length paths = List.length ids ->
  nth_error paths k = Some p ->
  embedding_fails w (clock st + k) p = true ->
  exists res st',
    index_files w st paths (Some ids) = (Ok res, st')
    /\ In p (failed_files res)
    /\ (forall stk i, clock stk = clock st + k ->
          index_file w stk p i = (false, tick stk))
    /\ List.length (batch_trace w st (combine paths ids)) = List.length paths
    /\ (forall j q i,
          nth_error (combine paths ids) j = Some (q, i) ->
          nth_error (batch_trace w st (combine paths ids)) j
          = Some (q, fst (index_file w
                            (lance_after w st (firstn j (combine paths ids))) q i)))
    /\ failed_files res = failed_of (batch_trace w st (combine paths ids)).
Proof.
  intros Hlen Hk Hfail.
  assert (Hone : forall stk i, clock stk = clock st + k ->
                   index_file w stk p i = (false, tick stk)).
  { intros stk i Hc. rewrite <- Hc in Hfail. now apply index_file_embedding_fails. }
  do 2 eexists. split; [apply index_files_trace; exact Hlen|].
  simpl. split; [|split; [exact Hone|split; [|split; [|reflexivity]]]].
  - apply (failed_at_position w st paths ids k p Hlen Hk).
    intros stk i Hc. now rewrite Hone.
  - rewrite batch_trace_length, length_combine. lia.
  - intros j q i Hj. now apply batch_trace_nth.
Qed.

Lemma embedding_failure_stays_in_its_file_witness :
  exists res st',
    index_files outage empty_index ["notes/a.md"; "notes/b.md"] (Some ["1"; "2"])
    = (Ok res, st')
    /\ In "notes/a.md" (failed_files res)
    /\ (forall stk i, clock stk = clock empty_index + 0 ->
          index_file outage stk "notes/a.md" i = (false, tick stk))
    /\ List.length
         (batch_trace outage empty_index
            (combine ["notes/a.md"; "notes/b.md"] ["1"; "2"])) = 2
    /\ (forall j q i,
          nth_error (combine ["notes/a.md"; "notes/b.md"] ["1"; "2"]) j = Some (q, i) ->
          nth_error
            (batch_trace outage empty_index
               (combine ["notes/a.md"; "notes/b.md"] ["1"; "2"])) j
          = Some (q, fst (index_file outage
                            (lance_after outage empty_index
                               (firstn j (combine ["notes/a.md"; "notes/b.md"]
                                            ["1"; "2"]))) q i)))
    /\ failed_files res
       = failed_of (batch_trace outage empty_index
                      (combine ["notes/a.md"; "notes/b.md"] ["1"; "2"])).
Proof.
  apply (embedding_failure_stays_in_its_file outage empty_index
           ["notes/a.md"; "notes/b.md"] ["1"; "2"] 0 "notes/a.md");
    reflexivity.
Defined.

(** C4, refuted as stated: with the provider down for the first file
    only, the batch returns normally, the second file is indexed, and
    the endpoint marks the first ERROR and the second SYNCED. *)
Lemma provider_outage_does_not_abort_batch :
  embedding_fails outage 0 "notes/a.md" = true
  /\ fst (index_files outage empty_index ["notes/a.md"; "notes/b.md"]
            (Some ["1"; "2"]))
     = Ok (mkBatch 2 1 1 ["notes/a.md"])
  /\ batch_trace outage empty_index [("notes/a.md", "1"); ("notes/b.md", "2")]
     = [("notes/a.md", false); ("notes/b.md", true)]
  /\ fst (run_indexing outage [rec_a; rec_b] empty_index
            ["notes/a.md"; "notes/b.md"])
     = (Ok (mkBatch 2 1 1 ["notes/a.md"]),
        [mkFileStatus "1" "a.md" "notes/a.md" ERROR;
         mkFileStatus "2" "b.md" "notes/b.md" SYNCED]).
Proof. repeat split. Qed.

(** ** Removing a file from the index *)

Section RemoveFromIndex.

Lemma filter_twice {A} (f : A -> bool) (l : list A) :
  filter f (filter f l) = filter f l.
Proof.
  apply filter_all_true. intros x Hx. apply filter_In in Hx. tauto.
Qed.

(** The primary key makes a lookup by id find at most one row. *)
Lemma unique_ids_lookup d i :
  unique_ids d -> exists o, get_file_status d i = Ok o.
Proof.
  unfold unique_ids, get_file_status. induction d as [|a d IH]; intros Hnd.
  - exists None. reflexivity.
  - simpl in *. inversion Hnd as [|x l Hnotin Hnd']; subst.
    destruct (has_id i a) eqn:Ea.
    + assert (E : filter (has_id i) d = []).
      { apply filter_nil_iff. destruct (existsb _ _) eqn:Ex; [|reflexivity].
        apply existsb_exists in Ex. destruct Ex as [r [Hr Hi]].
        apply has_id_true in Ea. apply has_id_true in Hi.
        exfalso. apply Hnotin. apply in_map_iff. exists r. split; congruence. }
      rewrite E. eexists. reflexivity.
    + apply IH. exact Hnd'.
Qed.

Lemma update_status_twice d i s :
  update_file_status (update_file_status d i s) i s = update_file_status d i s.
Proof.
  unfold update_file_status, update_where. rewrite map_map. apply map_ext.
  intros r. destruct (has_id i r) eqn:E; [|now rewrite E].
  unfold has_id in *. simpl. now rewrite E.
Qed.

Lemma update_status_unique d i s :
  unique_ids d -> unique_ids (update_file_status d i s).
Proof.
  unfold unique_ids, update_file_status. now rewrite update_where_ids.
Qed.

Lemma reset_pending_twice d i :
  unique_ids d -> reset_pending (reset_pending d i) i = reset_pending d i
                  /\ unique_ids (reset_pending d i).
Proof.
  intros Hu. unfold reset_pending at 2 3 4.
  destruct (get_file_status d i) as [[r|]|e] eqn:E.
  - split; [|now apply update_status_unique].
    unfold reset_pending.
    destruct (get_file_status (update_file_status d i PENDING) i) as [[r'|]|e'];
      try reflexivity. apply update_status_twice.
  - split; [|exact Hu]. unfold reset_pending. now rewrite E.
  - split; [|exact Hu]. unfold reset_pending. now rewrite E.
Qed.

(** With the table present and the store quiet, the endpoint answers
    'deleted' and leaves the other files' rows. *)
Lemma delete_endpoint_success w d st fid rows :
  unique_ids d ->
  table st = Some rows ->
  delete_quiet w (clock st) fid = true ->
  delete_indexed_file w d st fid
  = (Ok fid, reset_pending d fid,
     mkLance (Some (filter (fun r => negb (String.eqb (r_file_id r) fid)) rows))
       (S (clock st))).
Proof.
  intros Hu Ht Hq. unfold delete_quiet in Hq. apply negb_true_iff in Hq.
  apply orb_false_iff in Hq. destruct Hq as [Hq H4].
  apply orb_false_iff in Hq. destruct Hq as [Hq H3].
  unfold delete_indexed_file, delete_indexed_file_body, delete_file_from_index,
    reset_pending.
  rewrite Hq. simpl. rewrite Ht, H3, H4. simpl.
  destruct (unique_ids_lookup d fid Hu) as [o Ho]. rewrite Ho.
  destruct o; reflexivity.
Qed.

End RemoveFromIndex.

(** C6 (as the code has it): removing a file from the index is
    idempotent as a success: whenever the index table exists and the
    store raises nothing, remove-from-index answers 'deleted' and leaves
    no row of that file_id, whether or not there were any; a second call
    answers 'deleted' again and changes neither the index nor the status
    table.  The gateway reports failure only for a missing table. *)
Theorem remove_from_index_idempotent
  (w : World) (d : db) (st : lance) (file_id : string) :
  sql_plain file_id = true ->
  unique_ids d ->
  delete_quiet w (clock st) file_id = true ->
  delete_quiet w (S (clock st)) file_id = true ->
  fst (delete_file_from_index w st file_id)
  = match table st with Some _ => true | None => false end
  /\ (forall rows, table st = Some rows ->
        let first := delete_indexed_file w d st file_id in
        let second := delete_indexed_file w (snd (fst first)) (snd first) file_id in
        reply_of (fst (fst first)) = Deleted
        /\ rows_of (snd first)
           = filter (fun r => negb (String.eqb (r_file_id r) file_id)) rows
        /\ (forall r, In r (rows_of (snd first)) -> r_file_id r <> file_id)
        /\ reply_of (fst (fst second)) = Deleted
        /\ table (snd second) = table (snd first)
        /\ snd (fst second) = snd (fst first)).
Proof.
  intros _ Hu Hq1 Hq2. split.
  - unfold delete_quiet in Hq1. apply negb_true_iff in Hq1.
    apply orb_false_iff in Hq1. destruct Hq1 as [Hq H4].
    apply orb_false_iff in Hq. destruct Hq as [Hq H3].
    unfold delete_file_from_index. rewrite Hq. simpl.
    destruct (table st); [|reflexivity]. now rewrite H3, H4.
  - intros rows Ht first second. subst second first.
    rewrite (delete_endpoint_success w d st file_id rows Hu Ht Hq1). simpl.
    destruct (reset_pending_twice d file_id Hu) as [Hsame Hu'].
    rewrite (delete_endpoint_success w (reset_pending d file_id)
               (mkLance
                  (Some (filter (fun r => negb (String.eqb (r_file_id r) file_id)) rows))
                  (S (clock st)))
               file_id
               (filter (fun r => negb (String.eqb (r_file_id r) file_id)) rows)
               Hu' eq_refl Hq2). simpl.
    rewrite filter_twice, Hsame. repeat split.
    intros r Hr. apply filter_In in Hr. destruct Hr as [_ Hr].
    apply negb_true_iff in Hr. now apply String.eqb_neq.
Qed.

Lemma remove_from_index_idempotent_witness :
  fst (delete_file_from_index calm index_a "1") = true
  /\ (forall rows, table index_a = Some rows ->
        reply_of (fst (fst (delete_indexed_file calm [rec_a; rec_b] index_a "1")))
        = Deleted
        /\ rows_of (snd (delete_indexed_file calm [rec_a; rec_b] index_a "1"))
           = filter (fun r => negb (String.eqb (r_file_id r) "1")) rows
        /\ (forall r,
              In r (rows_of (snd (delete_indexed_file calm [rec_a; rec_b] index_a "1")))
              -> r_file_id r <> "1")
        /\ reply_of
             (fst (fst (delete_indexed_file calm
                          (snd (fst (delete_indexed_file calm [rec_a; rec_b] index_a "1")))
                          (snd (delete_indexed_file calm [rec_a; rec_b] index_a "1"))
                          "1")))
           = Deleted
        /\ table
             (snd (delete_indexed_file calm
                     (snd (fst (delete_indexed_file calm [rec_a; rec_b] index_a "1")))
                     (snd (delete_indexed_file calm [rec_a; rec_b] index_a "1"))
                     "1"))
           = table (snd (delete_indexed_file calm [rec_a; rec_b] index_a "1"))
        /\ snd (fst (delete_indexed_file calm
                       (snd (fst (delete_indexed_file calm [rec_a; rec_b] index_a "1")))
                       (snd (delete_indexed_file calm [rec_a; rec_b] index_a "1"))
                       "1"))
           = snd (fst (delete_indexed_file calm [rec_a; rec_b] index_a "1"))).
Proof.
  apply (remove_from_index_idempotent calm [rec_a; rec_b] index_a "1");
    [reflexivity | | reflexivity | reflexivity].
  repeat constructor; simpl; intuition discriminate.
Defined.

(** C6, refuted as stated: after a first successful removal the second
    call answers 'deleted', not not-found; and a file_id the index
    never held rows for is answered 'deleted' as well. *)
Lemma second_removal_answers_deleted :
  reply_of (fst (fst (delete_indexed_file calm [rec_a] index_a "1"))) = Deleted
  /\ snd (delete_indexed_file calm [rec_a] index_a "1") = mkLance (Some []) 1
  /\ reply_of
       (fst (fst (delete_indexed_file calm
                    (snd (fst (delete_indexed_file calm [rec_a] index_a "1")))
                    (snd (delete_indexed_file calm [rec_a] index_a "1")) "1")))
     = Deleted
  /\ reply_of
       (fst (fst (delete_indexed_file calm
                    (snd (fst (delete_indexed_file calm [rec_a] index_a "1")))
                    (snd (delete_indexed_file calm [rec_a] index_a "1")) "1")))
     <> NotFound
  /\ reply_of (fst (fst (delete_indexed_file calm [rec_a] index_a "never-indexed")))
     = Deleted.
Proof. repeat split. discriminate. Qed.

(** The not-found branch of the endpoint never reaches the client: the
    404 raised inside the [try] block is caught by its own
    [except Exception] and answered as a 500. *)
Example missing_table_answers_500 :
  fst (fst (delete_indexed_file calm [rec_a] empty_index "1"))
  = Raise (HTTPException 500 "Delete failed: 404: File not found in index").
Proof. reflexivity. Qed.

(** ** Search *)

Section Search.

Lemma format_hit_sorted (hits : list hit) :
  Sorted distance_le hits -> Sorted score_le (map format_hit hits).
Proof.
  induction 1 as [|h hits Hs IH Hhd]; simpl; constructor; [exact IH|].
  destruct Hhd as [|h' hits' Hle]; simpl; constructor.
  unfold distance_le in Hle. unfold score_le, format_hit. simpl.
  destruct (h_distance h), (h_distance h'); tauto.
Qed.

(** [search_similar] answers [] or the formatted rows of the store's
    search, and leaves the table as it was. *)
Lemma search_similar_cases w st query limit :
  (fst (search_similar w st query limit) = []
   \/ exists qv rows,
        table st = Some rows
        /\ fst (search_similar w st query limit)
           = map format_hit (lance_search w (clock st) rows qv limit))
  /\ snd (search_similar w st query limit) = tick st
  /\ (table st = None -> fst (search_similar w st query limit) = []).
Proof.
  unfold search_similar.
  destruct (create_embeddings w (clock st) [query]) as [[|qv rest]|];
    try (simpl; auto; fail).
  destruct (lance_raises w (clock st) Connect || lance_raises w (clock st) TableNames);
    try (simpl; auto; fail).
  change (table (tick st)) with (table st).
  destruct (table st) as [rows|]; try (simpl; auto; fail).
  destruct (lance_raises w (clock st) OpenTable
            || lance_raises w (clock st) (Search qv limit));
    try (simpl; auto; fail).
  simpl. split; [right; exists qv, rows; auto|]. split; [reflexivity|discriminate].
Qed.

End Search.

(** C8: given that the vector store's search hands back at most [limit]
    rows in non-decreasing [_distance] order, [search_similar] returns
    at most [limit] results in non-decreasing score (= distance) order;
    it returns [] when the index table does not exist, and it never
    changes the table. *)
Theorem search_similar_ranked (w : World) (st : lance) (query : string) (limit : nat) :
  (forall qv,
     List.length (lance_search w (clock st) (rows_of st) qv limit) <= limit
     /\ Sorted distance_le (lance_search w (clock st) (rows_of st) qv limit)) ->
  List.length (fst (search_similar w st query limit)) <= limit
  /\ Sorted score_le (fst (search_similar w st query limit))
  /\ (table st = None -> fst (search_similar w st query limit) = [])
  /\ table (snd (search_similar w st query limit)) = table st.
Proof.
  intros Hstore.
  destruct (search_similar_cases w st query limit) as [Hres [Hst Hnone]].
  rewrite Hst. split; [|split; [|split; [exact Hnone | reflexivity]]].
  - destruct Hres as [E | [qv [rows [Et E]]]]; rewrite E; simpl; [lia|].
    rewrite length_map. destruct (Hstore qv) as [Hlen _].
    unfold rows_of in Hlen. now rewrite Et in Hlen.
  - destruct Hres as [E | [qv [rows [Et E]]]]; rewrite E; [constructor|].
    apply format_hit_sorted. destruct (Hstore qv) as [_ Hsorted].
    unfold rows_of in Hsorted. now rewrite Et in Hsorted.
Qed.

Lemma search_similar_ranked_witness :
  List.length (fst (search_similar calm index_aaa "alpha" 2)) <= 2
  /\ Sorted score_le (fst (search_similar calm index_aaa "alpha" 2))
  /\ (table index_aaa = None -> fst (search_similar calm index_aaa "alpha" 2) = [])
  /\ table (snd (search_similar calm index_aaa "alpha" 2)) = table index_aaa.
Proof.
  apply (search_similar_ranked calm index_aaa "alpha" 2).
  intros qv. split; [simpl; lia|].
  repeat constructor.
Defined.

(** * Further properties of the code *)

(** ** Lookups after the CRUD statements *)

Section Lookups.

Lemma not_in_ids_filter d i :
  ~ In i (map fs_id d) -> filter (has_id i) d = [].
Proof.
  intros Hnot. apply filter_nil_iff. destruct (existsb _ _) eqn:E; [|reflexivity].
  apply existsb_exists in E. destruct E as [r [Hr Hi]].
  apply has_id_true in Hi. exfalso. apply Hnot. apply in_map_iff. eauto.
Qed.

Lemma in_ids_existsb d i :
  In i (map fs_id d) <-> existsb (has_id i) d = true.
Proof.
  rewrite existsb_exists, in_map_iff. split.
  - intros [r [Hi Hr]]. exists r. split; [exact Hr|]. now apply has_id_true.
  - intros [r [Hr Hi]]. exists r. split; [|exact Hr]. now apply has_id_true.
Qed.

Lemma filter_id_update j c f d :
  (forall r, fs_id (f r) = fs_id r) ->
  filter (has_id j) (update_where c f d) = update_where c f (filter (has_id j) d).
Proof.
  intros Hf. unfold update_where. induction d as [|a d IH]; [reflexivity|].
  simpl. assert (E : has_id j (if c a then f a else a) = has_id j a).
  { unfold has_id. destruct (c a); [now rewrite Hf | reflexivity]. }
  rewrite E. destruct (has_id j a); simpl; now rewrite IH.
Qed.

Lemma update_where_none c f d :
  (forall r, In r d -> c r = false) -> update_where c f d = d.
Proof.
  intros H. unfold update_where. rewrite <- (map_id d) at 2.
  apply map_ext_in. intros r Hr. now rewrite (H r Hr).
Qed.

Lemma delete_where_none c d :
  (forall r, In r d -> c r = false) -> delete_where c d = d.
Proof.
  intros H. unfold delete_where. apply filter_all_true.
  intros r Hr. now rewrite (H r Hr).
Qed.

Lemma filter_filter {A} (f g : A -> bool) (l : list A) :
  filter f (filter g l) = filter (fun x => g x && f x) l.
Proof.
  induction l as [|a l IH]; [reflexivity|]. simpl.
  destruct (g a); simpl; [destruct (f a)|]; now rewrite IH.
Qed.

Lemma has_id_other i j r : i <> j -> has_id i r = true -> has_id j r = false.
Proof.
  unfold has_id. intros Hne Hi. apply String.eqb_eq in Hi.
  apply String.eqb_neq. congruence.
Qed.

(** The ids after any statement: those of the rows left, then the one
    inserted. *)
Lemma apply_ids o d :
  map fs_id (apply o d)
  = map fs_id (filter (fun r => negb (removes o r)) d) ++ map fs_id (adds o d).
Proof.
  destruct o as [r|r|i s|us|i|ids|s|old new|i n]; simpl;
    try rewrite keep_all; try rewrite app_nil_r; try reflexivity.
  - rewrite insert_cases. destruct (existsb _ _); simpl;
      [now rewrite app_nil_r | now rewrite map_app].
  - rewrite get_or_create_cases. destruct (existsb _ _); simpl;
      [now rewrite app_nil_r | now rewrite map_app].
  - now apply update_where_ids.
  - apply bulk_update_ids.
  - now apply update_where_ids.
  - now apply update_where_ids.
Qed.

Lemma nodup_map_filter {A B} (g : A -> B) (p : A -> bool) (l : list A) :
  NoDup (map g l) -> NoDup (map g (filter p l)).
Proof.
  induction l as [|a l IH]; intros Hnd; [constructor|].
  simpl in *. inversion Hnd as [|x xs Hnotin Hnd']; subst.
  destruct (p a); [|auto]. simpl. constructor; [|auto].
  intros Hin. apply Hnotin. apply in_map_iff in Hin. destruct Hin as [y [Hy Hin]].
  apply filter_In in Hin. apply in_map_iff. exists y. tauto.
Qed.

End Lookups.

(** X1: [create_file_status] with an id already in the table raises
    [IntegrityError] and inserts nothing; with a fresh id it appends
    the record, which the lookup by id then returns, every other id
    looking up as before. *)
Theorem create_then_lookup (d : db) (r : FileStatus) :
  (In (fs_id r) (map fs_id d) -> create_file_status d r = (d, Raise IntegrityError))
  /\ (~ In (fs_id r) (map fs_id d) ->
      create_file_status d r = (d ++ [r], Ok r)
      /\ get_file_status (fst (create_file_status d r)) (fs_id r) = Ok (Some r)
      /\ (forall i, i <> fs_id r ->
            get_file_status (fst (create_file_status d r)) i = get_file_status d i)).
Proof.
  unfold create_file_status. split.
  - intros Hin. apply in_ids_existsb in Hin. now rewrite Hin.
  - intros Hnot. assert (E : existsb (has_id (fs_id r)) d = false).
    { destruct (existsb _ _) eqn:E; [|reflexivity].
      apply in_ids_existsb in E. contradiction. }
    rewrite E. simpl. split; [reflexivity|]. unfold get_file_status. split.
    + rewrite filter_app, (not_in_ids_filter d _ Hnot). simpl.
      unfold has_id. now rewrite String.eqb_refl.
    + intros i Hi. rewrite filter_app. simpl.
      assert (Ei : has_id i r = false) by (apply String.eqb_neq; congruence).
      rewrite Ei. now rewrite app_nil_r.
Qed.

(** Each statement keeps the ids pairwise distinct. *)
Lemma apply_unique_ids (o : op) (d : db) :
  unique_ids d -> unique_ids (apply o d).
Proof.
  unfold unique_ids. intros Hnd. rewrite apply_ids.
  assert (Hleft : NoDup (map fs_id (filter (fun r => negb (removes o r)) d)))
    by now apply nodup_map_filter.
  assert (Hadd : forall r, adds o d = [] \/
            (adds o d = [r] -> ~ In (fs_id r) (map fs_id d))).
  { intros r. destruct o; simpl; auto.
    - destruct (existsb (has_id (fs_id file_status)) d) eqn:E; [auto|].
      right. intros Hr. inversion Hr; subst. intros Hin.
      apply in_ids_existsb in Hin. congruence.
    - destruct (existsb (has_id (fs_id file_status)) d) eqn:E; [auto|].
      right. intros Hr. inversion Hr; subst. intros Hin.
      apply in_ids_existsb in Hin. congruence. }
  destruct (adds o d) as [|r [|r' l]] eqn:Ea.
  - now rewrite app_nil_r.
  - apply NoDup_app; [exact Hleft | repeat constructor; intros [] |].
    intros a Ha [Hb|[]]. subst a. destruct (Hadd r) as [H|H]; [discriminate|].
    apply (H eq_refl). apply in_map_iff in Ha. destruct Ha as [y [Hy Hin]].
    apply filter_In in Hin. apply in_map_iff. exists y. tauto.
  - exfalso. destruct o; simpl in Ea; try discriminate;
      destruct (existsb _ d); discriminate.
Qed.

(** X2: any sequence of the mutating statements of [crud.py] keeps
    the ids of the table pairwise distinct. *)
Theorem crud_keeps_unique_ids (os : list op) (d : db) :
  unique_ids d -> unique_ids (run_ops d os).
Proof.
  unfold run_ops. revert d. induction os as [|o os IH]; intros d Hu; [exact Hu|].
  simpl. apply IH. now apply apply_unique_ids.
Qed.

Lemma crud_keeps_unique_ids_witness :
  unique_ids
    (run_ops [rec_a; rec_b]
       [Rename "notes/a.md" "notes/b.md";
        Create (mkFileStatus "1" "dup" "notes/dup.md" PENDING);
        GetOrCreate (mkFileStatus "3" "c.md" "notes/c.md" PENDING);
        BulkDelete ["2"]]).
Proof.
  apply (crud_keeps_unique_ids
           [Rename "notes/a.md" "notes/b.md";
            Create (mkFileStatus "1" "dup" "notes/dup.md" PENDING);
            GetOrCreate (mkFileStatus "3" "c.md" "notes/c.md" PENDING);
            BulkDelete ["2"]]
           [rec_a; rec_b]).
  repeat constructor; simpl; intuition discriminate.
Defined.

(** X3: [update_file_status] on an id with one record gives that record
    the new status and nothing else; the lookup of every other id is
    unchanged, and an id without a record leaves the table as it is. *)
Theorem update_then_lookup (d : db) (i : string) (s : FileStatusEnum) :
  (get_file_status d i = Ok None -> update_file_status d i s = d)
  /\ (forall r, get_file_status d i = Ok (Some r) ->
        get_file_status (update_file_status d i s) i
        = Ok (Some (mkFileStatus (fs_id r) (fs_name r) (fs_path r) s)))
  /\ (forall j, j <> i ->
        get_file_status (update_file_status d i s) j = get_file_status d j).
Proof.
  unfold get_file_status, update_file_status. repeat split.
  - intros H. apply scalar_none in H. apply update_where_none.
    now apply filter_nil_all.
  - intros r H. apply scalar_some in H.
    rewrite filter_id_update by reflexivity. rewrite H. simpl.
    assert (E : has_id i r = true).
    { assert (Hin : In r (filter (has_id i) d)) by (rewrite H; now left).
      apply filter_In in Hin. tauto. }
    now rewrite E.
  - intros j Hne. rewrite filter_id_update by reflexivity.
    f_equal. apply update_where_none. intros r Hr.
    apply filter_In in Hr. destruct Hr as [_ Hj].
    now apply (has_id_other j i).
Qed.

(** X4: after [delete_file_status] the id looks up to nothing, every
    other id looks up as before, and deleting an id without a record
    leaves the table as it is. *)
Theorem delete_then_lookup (d : db) (i : string) :
  get_file_status (delete_file_status d i) i = Ok None
  /\ (forall j, j <> i ->
        get_file_status (delete_file_status d i) j = get_file_status d j)
  /\ (get_file_status d i = Ok None -> delete_file_status d i = d).
Proof.
  unfold get_file_status, delete_file_status, delete_where. repeat split.
  - rewrite filter_filter.
    assert (E : filter (fun x => negb (has_id i x) && has_id i x) d = []).
    { apply filter_nil_iff. destruct (existsb _ _) eqn:Ex; [|reflexivity].
      apply existsb_exists in Ex. destruct Ex as [x [_ Hx]].
      destruct (has_id i x); discriminate. }
    now rewrite E.
  - intros j Hne. rewrite filter_filter. f_equal. apply filter_ext_in.
    intros x _. destruct (has_id j x) eqn:Ej; [|now rewrite andb_false_r].
    now rewrite (has_id_other j i x Hne Ej).
  - intros H. apply scalar_none in H. apply filter_all_true.
    intros x Hx. now rewrite (filter_nil_all _ _ H x Hx).
Qed.

(** X5: [bulk_delete_file_statuses] removes what deleting the ids one
    after the other removes. *)
Theorem bulk_delete_is_sequential (file_ids : list string) (d : db) :
  bulk_delete_file_statuses d file_ids = fold_left delete_file_status file_ids d.
Proof.
  revert d. induction file_ids as [|i ids IH]; intros d; simpl.
  - unfold bulk_delete_file_statuses. now apply delete_where_none.
  - rewrite <- IH. unfold bulk_delete_file_statuses, delete_file_status, delete_where.
    rewrite filter_filter. apply filter_ext. intros r. unfold str_in, has_id. simpl.
    now rewrite negb_orb.
Qed.

(** X6: the per-status counts add up to the number of records: every
    record is counted under exactly one status. *)
Theorem status_counts_partition (d : db) :
  count_file_statuses_by_status d PENDING
  + count_file_statuses_by_status d MODIFIED
  + count_file_statuses_by_status d SYNCED
  + count_file_statuses_by_status d DELETED
  + count_file_statuses_by_status d ERROR
  = List.length (list_all_file_statuses d).
Proof.
  unfold count_file_statuses_by_status, list_file_statuses_by_status,
    list_all_file_statuses.
  induction d as [|r d IH]; [reflexivity|].
  simpl. destruct (fs_status r); simpl; lia.
Qed.

(** X7: [delete_file_statuses_by_status] leaves no record of that
    status and exactly the records of every other status. *)
Theorem delete_by_status_is_exact (d : db) (s : FileStatusEnum) :
  count_file_statuses_by_status (delete_file_statuses_by_status d s) s = 0
  /\ (forall s', s' <> s ->
        list_file_statuses_by_status (delete_file_statuses_by_status d s) s'
        = list_file_statuses_by_status d s').
Proof.
  unfold count_file_statuses_by_status, list_file_statuses_by_status,
    delete_file_statuses_by_status, delete_where. split.
  - rewrite filter_filter.
    induction d as [|r d IH]; [reflexivity|]. simpl.
    destruct (status_eqb (fs_status r) s); simpl; exact IH.
  - intros s' Hne. rewrite filter_filter. apply filter_ext. intros r.
    destruct (fs_status r), s, s'; try reflexivity; congruence.
Qed.

(** ** Renames and names *)

Section Renames.

Lemma split_nonempty sep s : split sep s <> [].
Proof.
  destruct s as [|c s]; simpl; [discriminate|].
  destruct (Ascii.eqb c sep); [discriminate|].
  destruct (split sep s); discriminate.
Qed.

Lemma last_app_nonempty {A} (l l' : list A) (x : A) :
  l' <> [] -> last (l ++ l') x = last l' x.
Proof.
  intros Hne. induction l as [|a l IH]; [reflexivity|].
  simpl. destruct (l ++ l') eqn:E; [|exact IH].
  apply app_eq_nil in E. tauto.
Qed.

(** Splitting after a separator: the pieces before it, then the pieces
    of what follows. *)
Lemma split_after_sep sep a b :
  exists l, l <> [] /\ split sep (a ++ String sep b)%string = l ++ split sep b.
Proof.
  induction a as [|c a [l [Hl IH]]]; simpl.
  - exists [EmptyString]. rewrite Ascii.eqb_refl. split; [discriminate | reflexivity].
  - rewrite IH. destruct (Ascii.eqb c sep).
    + exists (EmptyString :: l). split; [discriminate | reflexivity].
    + destruct l as [|h t]; [contradiction|]. simpl.
      exists (String c h :: t). split; [discriminate | reflexivity].
Qed.

Lemma split_without_sep sep s : has_char sep s = false -> split sep s = [s].
Proof.
  induction s as [|c s IH]; simpl; [reflexivity|].
  intros H. apply orb_false_iff in H. destruct H as [Hc Hs].
  rewrite Hc, (IH Hs). reflexivity.
Qed.

Lemma split_pieces_clean sep s : Forall (fun x => has_char sep x = false) (split sep s).
Proof.
  induction s as [|c s IH]; simpl; [repeat constructor|].
  destruct (Ascii.eqb c sep) eqn:E; [constructor; [reflexivity | exact IH]|].
  destruct (split sep s) as [|h t]; [repeat constructor; simpl; now rewrite E|].
  inversion IH; subst. constructor; [simpl; now rewrite E | assumption].
Qed.

Lemma rename_rows d a b :
  rename_file_status d a b
  = map (fun r => if has_path a r then mkFileStatus (fs_id r) (last_segment b) b (fs_status r)
                  else r) d.
Proof. reflexivity. Qed.

Lemma unique_ids_inj d x y :
  unique_ids d -> In x d -> In y d -> fs_id x = fs_id y -> x = y.
Proof.
  unfold unique_ids. induction d as [|a d IH]; intros Hnd Hx Hy E; [destruct Hx|].
  simpl in Hnd. inversion Hnd as [|i l Hnotin Hnd']; subst.
  destruct Hx as [Hx|Hx], Hy as [Hy|Hy]; subst.
  - reflexivity.
  - exfalso. apply Hnotin. rewrite E. now apply in_map.
  - exfalso. apply Hnotin. rewrite <- E. now apply in_map.
  - now apply IH.
Qed.

End Renames.

(** X8: the name a rename or a 'created' event stores is the last
    component of the path: what follows the last slash, never with a
    slash in it. *)
Theorem last_segment_is_final_component (dir name : string) :
  has_char "/"%char name = false ->
  last_segment (dir ++ "/" ++ name)%string = name
  /\ last_segment name = name
  /\ (forall p, has_char "/"%char (last_segment p) = false).
Proof.
  intros Hclean. unfold last_segment. split; [|split].
  - destruct (split_after_sep "/"%char dir name) as [l [_ El]].
    change (dir ++ "/" ++ name)%string with (dir ++ String "/"%char name)%string.
    rewrite El, last_app_nonempty by apply split_nonempty.
    now rewrite (split_without_sep _ _ Hclean).
  - now rewrite (split_without_sep _ _ Hclean).
  - intros p. pose proof (split_pieces_clean "/"%char p) as Hall.
    pose proof (split_nonempty "/"%char p) as Hne.
    induction (split "/"%char p) as [|x l IH]; [contradiction|].
    inversion Hall; subst. destruct l as [|y l]; [assumption|].
    apply IH; [assumption | discriminate].
Qed.

Lemma last_segment_is_final_component_witness :
  last_segment ("vault/notes" ++ "/" ++ "a.md")%string = "a.md"
  /\ last_segment "a.md" = "a.md"
  /\ (forall p, has_char "/"%char (last_segment p) = false).
Proof.
  apply (last_segment_is_final_component "vault/notes" "a.md"). reflexivity.
Defined.

(** X9: two renames in a row compose: with no record at the
    intermediate path, renaming a to b and then b to c is renaming a
    to c. *)
Theorem rename_composes (d : db) (a b c : string) :
  (forall r, In r d -> fs_path r <> b) ->
  rename_file_status (rename_file_status d a b) b c = rename_file_status d a c.
Proof.
  intros Hfree. rewrite !rename_rows, map_map. apply map_ext_in.
  intros r Hr. destruct (has_path a r) eqn:Ea.
  - unfold has_path at 1. simpl. now rewrite String.eqb_refl.
  - assert (Eb : has_path b r = false) by (apply has_path_false; auto).
    now rewrite Eb.
Qed.

Lemma rename_composes_witness :
  rename_file_status (rename_file_status [rec_a; rec_b] "notes/a.md" "notes/c.md")
    "notes/c.md" "notes/d.md"
  = rename_file_status [rec_a; rec_b] "notes/a.md" "notes/d.md".
Proof.
  apply (rename_composes [rec_a; rec_b] "notes/a.md" "notes/c.md" "notes/d.md").
  intros r [H|[H|[]]]; subst r; simpl; discriminate.
Defined.

(** X10: renaming a to b and back restores the table, provided no
    record sat at b and the names of the records at a were the last
    component of a. *)
Theorem rename_round_trip (d : db) (a b : string) :
  (forall r, In r d -> fs_path r <> b) ->
  (forall r, In r d -> fs_path r = a -> fs_name r = last_segment a) ->
  rename_file_status (rename_file_status d a b) b a = d.
Proof.
  intros Hfree Hnames. rewrite !rename_rows, map_map.
  rewrite <- (map_id d) at 2. apply map_ext_in.
  intros r Hr. destruct (has_path a r) eqn:Ea.
  - unfold has_path at 1. simpl. rewrite String.eqb_refl.
    apply has_path_true in Ea. destruct r as [i n p s]. simpl in *.
    rewrite <- (Hnames _ Hr Ea). simpl. now subst p.
  - assert (Eb : has_path b r = false) by (apply has_path_false; auto).
    now rewrite Eb.
Qed.

Lemma rename_round_trip_witness :
  rename_file_status (rename_file_status [rec_a; rec_b] "notes/a.md" "notes/c.md")
    "notes/c.md" "notes/a.md"
  = [rec_a; rec_b].
Proof.
  apply (rename_round_trip [rec_a; rec_b] "notes/a.md" "notes/c.md").
  - intros r [H|[H|[]]]; subst r; simpl; discriminate.
  - intros r [H|[H|[]]]; subst r; simpl; [reflexivity | discriminate].
Defined.



(** ** The watch path, event after event *)

Section WatchPath.

Lemma forall_update_where (P : FileStatus -> Prop) c f d :
  (forall r, P r -> P (f r)) -> Forall P d -> Forall P (update_where c f d).
Proof.
  intros Hf Hd. unfold update_where. apply Forall_forall. intros x Hx.
  apply in_map_iff in Hx. destruct Hx as [r [Hr Hin]]. subst x.
  rewrite Forall_forall in Hd. destruct (c r); auto.
Qed.

Lemma forall_delete_where (P : FileStatus -> Prop) c d :
  Forall P d -> Forall P (delete_where c d).
Proof.
  intros Hd. unfold delete_where. apply Forall_forall. intros x Hx.
  apply filter_In in Hx. rewrite Forall_forall in Hd. apply Hd. tauto.
Qed.

(** What a notification does to the table, as a CRUD statement. *)
Lemma dispatch_table d n :
  fst (dispatch d n) = d
  \/ (exists uuid ev, fst (dispatch d n) = apply (Create (fresh_record uuid ev)) d)
  \/ (exists i, fst (dispatch d n) = apply (Update i MODIFIED) d)
  \/ (exists i, fst (dispatch d n) = apply (Delete i) d)
  \/ (exists a b, fst (dispatch d n) = apply (Rename a b) d).
Proof.
  destruct n as [uuid ev|ev|ev|ev]; simpl.
  - unfold on_created, _create_file_status_async.
    destruct (is_directory ev); simpl; [now left|].
    right. left. exists uuid, ev. simpl. unfold fresh_record.
    now destruct (create_file_status d _) as [d' [x|e]].
  - unfold on_modified, _update_file_status_async.
    destruct (is_directory ev); simpl; [now left|].
    destruct (get_file_status_by_path d (src_path ev)) as [[r|]|e]; simpl;
      [right; right; left; now exists (fs_id r) | now left | now left].
  - unfold on_deleted, _delete_file_status_async.
    destruct (is_directory ev); simpl; [now left|].
    destruct (get_file_status_by_path d (src_path ev)) as [[r|]|e]; simpl;
      [right; right; right; left; now exists (fs_id r) | now left | now left].
  - unfold on_moved, _rename_file_status_async.
    destruct (is_directory ev); simpl; [now left|].
    right. right. right. right. now exists (src_path ev), (dest_path ev).
Qed.

(** A property of single rows that the watch path's writes respect is
    kept by every notification. *)
Lemma dispatch_forall (P : FileStatus -> Prop) d n :
  (forall uuid ev, P (fresh_record uuid ev)) ->
  (forall r, P r -> P (set_status MODIFIED r)) ->
  (forall r b, P r -> P (set_path_name b (last_segment b) r)) ->
  Forall P d -> Forall P (fst (dispatch d n)).
Proof.
  intros Hnew Hmod Hren Hd.
  destruct (dispatch_table d n) as [E|[[uuid [ev E]]|[[i E]|[[i E]|[a [b E]]]]]];
    rewrite E; simpl.
  - exact Hd.
  - rewrite insert_cases. destruct (existsb _ _); [exact Hd|].
    apply Forall_app. split; [exact Hd | repeat constructor; apply Hnew].
  - now apply forall_update_where.
  - now apply forall_delete_where.
  - apply forall_update_where; [|exact Hd]. intros r. apply Hren.
Qed.

Lemma run_notifications_inv (P : db -> Prop) :
  (forall d n, P d -> P (fst (dispatch d n))) ->
  forall ns d, P d -> P (run_notifications d ns).
Proof.
  intros Hstep. unfold run_notifications.
  induction ns as [|n ns IH]; intros d Hd; [exact Hd|].
  simpl. apply IH. now apply Hstep.
Qed.

Lemma lookup_by_path_in d p r :
  get_file_status_by_path d p = Ok (Some r) -> In r d /\ fs_path r = p.
Proof.
  intros H. apply scalar_some in H.
  assert (Hin : In r (filter (has_path p) d)) by (rewrite H; now left).
  apply filter_In in Hin. destruct Hin as [Hin Hp]. apply has_path_true in Hp. auto.
Qed.

(** With distinct ids, the one record at a path is the one row with
    its id. *)
Lemma id_of_single_path d p r :
  unique_ids d -> get_file_status_by_path d p = Ok (Some r) ->
  forall x, In x d -> has_id (fs_id r) x = has_path p x.
Proof.
  intros Hu Hget x Hx. pose proof (lookup_by_path_in d p r Hget) as [Hr Hp].
  apply scalar_some in Hget.
  destruct (has_path p x) eqn:Ep.
  - assert (Hin : In x (filter (has_path p) d)) by (apply filter_In; auto).
    rewrite Hget in Hin. destruct Hin as [Hin|[]]. subst x.
    apply String.eqb_refl.
  - destruct (has_id (fs_id r) x) eqn:Ei; [|reflexivity].
    apply has_id_true in Ei.
    assert (x = r) by (apply (unique_ids_inj d); auto). subst x.
    apply has_path_false in Ep. contradiction.
Qed.

End WatchPath.

(** X12: a 'created' notification followed by a 'deleted' one for the
    same file gives back the table as it was, when the new id is fresh
    and no record sat at the path. *)
Theorem created_then_deleted (uuid : string) (d : db) (ev : event) :
  is_directory ev = false ->
  ~ In uuid (map fs_id d) ->
  (forall r, In r d -> fs_path r <> src_path ev) ->
  on_created uuid d ev = (d ++ [fresh_record uuid ev], Ok tt)
  /\ on_deleted (fst (on_created uuid d ev)) ev = (d, Ok tt).
Proof.
  intros Hdir Hfresh Hfree.
  assert (Ex : existsb (has_id uuid) d = false).
  { destruct (existsb (has_id uuid) d) eqn:E; [|reflexivity].
    apply in_ids_existsb in E. contradiction. }
  assert (E1 : on_created uuid d ev = (d ++ [fresh_record uuid ev], Ok tt)).
  { unfold on_created, _create_file_status_async, create_file_status.
    rewrite Hdir. simpl. now rewrite Ex. }
  rewrite E1. split; [reflexivity|]. simpl.
  assert (Hp : filter (has_path (src_path ev)) d = []).
  { apply filter_nil_iff.
    destruct (existsb (has_path (src_path ev)) d) eqn:E; [|reflexivity].
    apply existsb_exists in E. destruct E as [x [Hx Hpx]].
    apply has_path_true in Hpx. exfalso. exact (Hfree x Hx Hpx). }
  unfold on_deleted, _delete_file_status_async, get_file_status_by_path.
  rewrite Hdir, filter_app, Hp. simpl.
  unfold has_path at 1. simpl. rewrite String.eqb_refl. simpl.
  unfold delete_file_status, delete_where. rewrite filter_app. simpl.
  unfold has_id at 2. simpl. rewrite String.eqb_refl. simpl.
  rewrite app_nil_r. f_equal. apply filter_all_true.
  intros x Hx. apply negb_true_iff. apply filter_nil_all with (l := d); [|exact Hx].
  now apply not_in_ids_filter.
Qed.

Lemma created_then_deleted_witness :
  on_created "3" [rec_a; rec_b] ev_c
  = ([rec_a; rec_b] ++ [fresh_record "3" ev_c], Ok tt)
  /\ on_deleted (fst (on_created "3" [rec_a; rec_b] ev_c)) ev_c
     = ([rec_a; rec_b], Ok tt).
Proof.
  apply (created_then_deleted "3" [rec_a; rec_b] ev_c).
  - reflexivity.
  - simpl. intuition discriminate.
  - intros r [H|[H|[]]]; subst r; simpl; discriminate.
Defined.

(** X13: once two records share a path, every 'modified' and 'deleted'
    notification for that path raises [MultipleResultsFound] and
    changes nothing. *)
Theorem shared_path_blocks_updates (d : db) (ev : event) :
  is_directory ev = false ->
  2 <= List.length (filter (has_path (src_path ev)) d) ->
  on_modified d ev = (d, Raise MultipleResultsFound)
  /\ on_deleted d ev = (d, Raise MultipleResultsFound).
Proof.
  intros Hdir Hlen.
  unfold on_modified, on_deleted, _update_file_status_async,
    _delete_file_status_async, get_file_status_by_path.
  rewrite Hdir. simpl.
  destruct (filter (has_path (src_path ev)) d) as [|a [|b l]];
    simpl in *; try lia. auto.
Qed.

Lemma shared_path_blocks_updates_witness :
  on_modified (fst (on_created "9" [rec_a] ev_a)) ev_a
  = (fst (on_created "9" [rec_a] ev_a), Raise MultipleResultsFound)
  /\ on_deleted (fst (on_created "9" [rec_a] ev_a)) ev_a
     = (fst (on_created "9" [rec_a] ev_a), Raise MultipleResultsFound).
Proof.
  apply (shared_path_blocks_updates (fst (on_created "9" [rec_a] ev_a)) ev_a).
  - reflexivity.
  - simpl. lia.
Defined.

(** X14: with distinct ids, a 'modified' notification for a path with
    one record sets the status of that record to MODIFIED and touches
    no other row; the lookup by path then returns the record with the
    new status, and a second such notification changes nothing. *)
Theorem on_modified_marks_one_record (d : db) (ev : event) (r : FileStatus) :
  is_directory ev = false ->
  unique_ids d ->
  get_file_status_by_path d (src_path ev) = Ok (Some r) ->
  on_modified d ev
  = (update_where (has_path (src_path ev)) (set_status MODIFIED) d, Ok tt)
  /\ get_file_status_by_path (fst (on_modified d ev)) (src_path ev)
     = Ok (Some (mkFileStatus (fs_id r) (fs_name r) (fs_path r) MODIFIED))
  /\ on_modified (fst (on_modified d ev)) ev = on_modified d ev.
Proof.
  intros Hdir Hu Hget.
  assert (E : on_modified d ev
              = (update_where (has_path (src_path ev)) (set_status MODIFIED) d, Ok tt)).
  { unfold on_modified, _update_file_status_async. rewrite Hdir, Hget. simpl.
    f_equal. unfold update_file_status, update_where. apply map_ext_in.
    intros x Hx. now rewrite (id_of_single_path d _ r Hu Hget x Hx). }
  assert (Hlook : get_file_status_by_path
                    (update_where (has_path (src_path ev)) (set_status MODIFIED) d)
                    (src_path ev)
                  = Ok (Some (set_status MODIFIED r))).
  { unfold get_file_status_by_path.
    assert (F : forall l, filter (has_path (src_path ev))
                            (update_where (has_path (src_path ev)) (set_status MODIFIED) l)
                          = map (set_status MODIFIED) (filter (has_path (src_path ev)) l)).
    { induction l as [|a l IH]; [reflexivity|]. simpl.
      destruct (has_path (src_path ev) a) eqn:Ea; simpl.
      - unfold has_path in *. simpl. rewrite Ea. simpl. now rewrite <- IH.
      - rewrite Ea. exact IH. }
    rewrite F. apply scalar_some in Hget. now rewrite Hget. }
  rewrite E. simpl. split; [reflexivity|]. split; [exact Hlook|].
  unfold on_modified, _update_file_status_async. rewrite Hdir, Hlook. simpl.
  f_equal. unfold update_file_status, update_where. rewrite map_map.
  apply map_ext_in. intros x Hx.
  rewrite <- (id_of_single_path d _ r Hu Hget x Hx).
  destruct (has_id (fs_id r) x) eqn:Ei; [|now rewrite Ei].
  unfold has_id in *. simpl. now rewrite Ei.
Qed.

Lemma on_modified_marks_one_record_witness :
  on_modified [rec_a; rec_b] ev_a
  = (update_where (has_path "notes/a.md") (set_status MODIFIED) [rec_a; rec_b], Ok tt)
  /\ get_file_status_by_path (fst (on_modified [rec_a; rec_b] ev_a)) "notes/a.md"
     = Ok (Some (mkFileStatus "1" "a.md" "notes/a.md" MODIFIED))
  /\ on_modified (fst (on_modified [rec_a; rec_b] ev_a)) ev_a
     = on_modified [rec_a; rec_b] ev_a.
Proof.
  apply (on_modified_marks_one_record [rec_a; rec_b] ev_a rec_a);
    [reflexivity | | reflexivity].
  repeat constructor; simpl; intuition discriminate.
Defined.

(** X15: the watch path never marks a record DELETED: a table without
    DELETED records has none after any sequence of notifications. *)
Theorem watch_path_never_marks_deleted (ns : list notification) (d : db) :
  all_live d -> all_live (run_notifications d ns).
Proof.
  revert d. apply run_notifications_inv. intros d n Hd.
  apply dispatch_forall; auto.
Qed.

Lemma watch_path_never_marks_deleted_witness :
  all_live (run_notifications []
              [Created "1" ev_a; Modified ev_a; Moved ev_a_to_b; Watch.Deleted ev_c;
               Watch.Deleted ev_a]).
Proof.
  apply (watch_path_never_marks_deleted
           [Created "1" ev_a; Modified ev_a; Moved ev_a_to_b; Watch.Deleted ev_c;
            Watch.Deleted ev_a] []).
  constructor.
Defined.

(** X16: along any sequence of notifications the ids stay pairwise
    distinct, and every name stays the last component of its path. *)
Theorem watch_path_keeps_ids_and_names (ns : list notification) (d : db) :
  unique_ids d -> names_follow_paths d ->
  unique_ids (run_notifications d ns)
  /\ names_follow_paths (run_notifications d ns).
Proof.
  intros Hu Hn. split.
  - revert d Hu Hn. intros d Hu _. revert d Hu.
    apply run_notifications_inv. intros d n Hd.
    destruct (dispatch_table d n) as [E|[[uuid [ev E]]|[[i E]|[[i E]|[a [b E]]]]]];
      rewrite E; [exact Hd | | | |]; now apply apply_unique_ids.
  - revert d Hn Hu. intros d Hn _. revert d Hn.
    apply run_notifications_inv. intros d n Hd.
    apply dispatch_forall; auto.
Qed.

Lemma watch_path_keeps_ids_and_names_witness :
  unique_ids (run_notifications [rec_a; rec_b]
                [Created "3" ev_c; Moved ev_a_to_b; Modified ev_c])
  /\ names_follow_paths (run_notifications [rec_a; rec_b]
                           [Created "3" ev_c; Moved ev_a_to_b; Modified ev_c]).
Proof.
  apply (watch_path_keeps_ids_and_names
           [Created "3" ev_c; Moved ev_a_to_b; Modified ev_c] [rec_a; rec_b]).
  - repeat constructor; simpl; intuition discriminate.
  - repeat constructor.
Defined.

(** ** Windows cover what they cut *)

Section Covering.

Lemma substring_zero s : forall i, substring i 0 s = EmptyString.
Proof.
  induction s as [|c s IH]; intros [|i]; simpl; auto.
Qed.

Lemma substring_whole s : forall n, String.length s <= n -> substring 0 n s = s.
Proof.
  induction s as [|c s IH]; intros [|n] H; simpl in *; try reflexivity; try lia.
  f_equal. apply IH. lia.
Qed.

Lemma substring_split s : forall i a b,
  substring i (a + b) s = (substring i a s ++ substring (i + a) b s)%string.
Proof.
  induction s as [|c s IH]; intros i a b.
  - now rewrite !substring_empty.
  - destruct i as [|i].
    + destruct a as [|a]; simpl.
      * reflexivity.
      * f_equal. apply (IH 0 a b).
    + simpl. apply IH.
Qed.

Lemma join_pieces text step : forall c i,
  join (map (fun k => substring (i + k * step) step text) (seq 0 c))
  = substring i (c * step) text.
Proof.
  induction c as [|c IH]; intros i.
  - simpl. now rewrite substring_zero.
  - simpl. rewrite <- seq_shift, map_map.
    rewrite (map_ext _ (fun k => substring (i + step + k * step) step text))
      by (intros k; f_equal; lia).
    rewrite IH, Nat.add_0_r. symmetry. apply substring_split.
Qed.

Lemma firstn_split {A} (a b : nat) : forall l : list A,
  firstn (a + b) l = firstn a l ++ firstn b (skipn a l).
Proof.
  induction a as [|a IH]; intros l; [reflexivity|].
  destruct l as [|x l]; simpl; [now rewrite firstn_nil | now rewrite IH].
Qed.

Lemma slice_split {A} (l : list A) i a b :
  slice i (a + b) l = slice i a l ++ slice (i + a) b l.
Proof.
  unfold slice. rewrite firstn_split, skipn_skipn. do 3 f_equal. lia.
Qed.

Lemma concat_slices {A} (l : list A) step : forall c i,
  List.concat (map (fun k => slice (i + k * step) step l) (seq 0 c))
  = slice i (c * step) l.
Proof.
  induction c as [|c IH]; intros i.
  - reflexivity.
  - simpl. rewrite <- seq_shift, map_map.
    rewrite (map_ext _ (fun k => slice (i + step + k * step) step l))
      by (intros k; f_equal; lia).
    rewrite IH, Nat.add_0_r. symmetry. apply slice_split.
Qed.

Lemma slice_whole {A} (l : list A) n : List.length l <= n -> slice 0 n l = l.
Proof. intros H. unfold slice. simpl. now apply firstn_all2. Qed.

Lemma slice_length {A} (l : list A) i n : List.length (slice i n l) <= n.
Proof. unfold slice. apply firstn_le_length. Qed.

End Covering.

(** X17: in character mode, with overlap < chunk_size, the windows
    lose nothing: the first chunk_size - overlap characters of each
    window, put end to end, are the text. *)
Theorem char_windows_cover_text (w : World) (text : string) (chunk_size overlap : nat) :
  tiktoken w = None ->
  overlap < chunk_size ->
  exists chunks,
    chunk_text w text chunk_size overlap = Ok chunks
    /\ join (map (substring 0 (chunk_size - overlap)) chunks) = text.
Proof.
  intros Hmode Hlt. eexists. split; [now apply char_windows_closed_form|].
  rewrite map_map.
  rewrite (map_ext _ (fun k => substring (0 + k * (chunk_size - overlap))
                                 (chunk_size - overlap) text))
    by (intros k; rewrite substring_substring by lia; f_equal; lia).
  rewrite join_pieces. apply substring_whole.
  pose proof (ceil_div_spec (String.length text) (chunk_size - overlap)). lia.
Qed.

Lemma char_windows_cover_text_witness :
  exists chunks,
    chunk_text calm (text_of_length 7) 3 1 = Ok chunks
    /\ join (map (substring 0 (3 - 1)) chunks) = text_of_length 7.
Proof.
  apply (char_windows_cover_text calm (text_of_length 7) 3 1); [reflexivity | lia].
Defined.


Section TokenMode.

Lemma decode_all_total (dec' : list nat -> result string) (dec : list nat -> string)
  (windows : list (list nat)) :
  (forall l, dec' l = Ok (dec l)) -> decode_all dec' windows = Ok (map dec windows).
Proof.
  intros Hdec. induction windows as [|x rest IH]; simpl; [reflexivity|].
  now rewrite Hdec, IH.
Qed.

End TokenMode.

(** X19: in token mode, when the encoding loads, the text encodes and
    decoding does not raise, with overlap < chunk_size the chunks are
    the decoded windows of the token list:
    ceil(T / (chunk_size - overlap)) windows of at most chunk_size
    tokens, whose first chunk_size - overlap tokens, put end to end,
    are the tokens. *)
Theorem token_windows (w : World) (text : string) (chunk_size overlap : nat)
  (c : codec) (tokens : list nat) (dec : list nat -> string) :
  tiktoken w = Some (Ok c) ->
  encode c text = Ok tokens ->
  (forall l, decode c l = Ok (dec l)) ->
  overlap < chunk_size ->
  exists windows,
    chunk_text w text chunk_size overlap = Ok (map dec windows)
    /\ List.length windows = ceil_div (List.length tokens) (chunk_size - overlap)
    /\ Forall (fun x => List.length x <= chunk_size) windows
    /\ List.concat (map (firstn (chunk_size - overlap)) windows) = tokens.
Proof.
  intros Hmode Henc Hdec Hlt.
  exists (map (fun k => slice (k * (chunk_size - overlap)) chunk_size tokens)
            (seq 0 (ceil_div (List.length tokens) (chunk_size - overlap)))).
  split; [|split; [|split]].
  - unfold chunk_text, range_by. rewrite Hmode, Henc.
    assert (Hc : Nat.compare chunk_size overlap = Gt) by now apply Nat.compare_gt_iff.
    rewrite Hc, range_loop_spec by lia.
    rewrite Nat.sub_0_r, map_map. now apply decode_all_total.
  - now rewrite length_map, length_seq.
  - apply Forall_forall. intros x Hx. apply in_map_iff in Hx.
    destruct Hx as [k [Hk _]]. subst x. apply slice_length.
  - rewrite map_map.
    rewrite (map_ext _ (fun k => slice (0 + k * (chunk_size - overlap))
                                   (chunk_size - overlap) tokens)).
    + rewrite concat_slices. apply slice_whole.
      pose proof (ceil_div_spec (List.length tokens) (chunk_size - overlap)).
      lia.
    + intros k. unfold slice. rewrite firstn_firstn. f_equal; lia.
Qed.

Lemma token_windows_witness :
  exists windows,
    chunk_text calm_tokens "abcdefg" 3 1 = Ok (map toy_decode windows)
    /\ List.length windows = ceil_div (List.length [97; 98; 99; 100; 101; 102; 103]) (3 - 1)
    /\ Forall (fun x => List.length x <= 3) windows
    /\ List.concat (map (firstn (3 - 1)) windows) = [97; 98; 99; 100; 101; 102; 103].
Proof.
  apply (token_windows calm_tokens "abcdefg" 3 1 toy_codec
           [97; 98; 99; 100; 101; 102; 103] toy_decode);
    [reflexivity | reflexivity | reflexivity | lia].
Defined.

(** ** Which files are read *)

Section Extensions.

Lemma has_char_app c a b :
  has_char c (a ++ b)%string = has_char c a || has_char c b.
Proof.
  induction a as [|d a IH]; simpl; [reflexivity|]. now rewrite IH, orb_assoc.
Qed.

Lemma rfind_absent c s : has_char c s = false -> rfind c s = None.
Proof.
  induction s as [|d s IH]; simpl; [reflexivity|].
  intros H. apply orb_false_iff in H. destruct H as [Hd Hs].
  now rewrite (IH Hs), Hd.
Qed.

Lemma rfind_app c a b i :
  rfind c b = Some i -> rfind c (a ++ b)%string = Some (String.length a + i).
Proof.
  intros Hb. induction a as [|d a IH]; simpl; [exact Hb|]. now rewrite IH.
Qed.

Lemma string_length_app a b :
  String.length (a ++ b)%string = String.length a + String.length b.
Proof. induction a as [|d a IH]; simpl; [reflexivity|]. now rewrite IH. Qed.

Lemma substring_past a b n :
  substring (String.length a) n (a ++ b)%string = substring 0 n b.
Proof. induction a as [|d a IH]; simpl; [reflexivity | exact IH]. Qed.

(** The final component of [dir/name] is [name]. *)
Lemma path_name_of_component dir name :
  name <> EmptyString -> name <> "."%string ->
  has_char "/"%char name = false ->
  path_name (dir ++ String "/"%char name) = name.
Proof.
  intros Hne Hdot Hslash. unfold path_name, path_parts.
  destruct (split_after_sep "/"%char dir name) as [l [_ El]].
  rewrite El, (split_without_sep _ _ Hslash), filter_app. simpl.
  apply String.eqb_neq in Hne. apply String.eqb_neq in Hdot.
  rewrite Hne, Hdot. simpl. apply last_app_nonempty. discriminate.
Qed.

(** The suffix of [stem ++ "." ++ ext] is ["." ++ ext] when the stem is
    not empty and the extension is not empty and has no dot. *)
Lemma suffix_of_name stem ext :
  stem <> EmptyString -> ext <> EmptyString ->
  has_char "."%char ext = false ->
  has_char "/"%char (stem ++ String "."%char ext) = false ->
  forall dir,
    path_suffix (dir ++ String "/"%char (stem ++ String "."%char ext))
    = String "."%char ext.
Proof.
  intros Hstem Hext Hdot Hslash dir. unfold path_suffix.
  assert (Hs : 0 < String.length stem) by (destruct stem; [congruence | simpl; lia]).
  assert (He : 0 < String.length ext) by (destruct ext; [congruence | simpl; lia]).
  rewrite path_name_of_component; [| | |exact Hslash].
  - assert (Hr : rfind "."%char (String "."%char ext) = Some 0)
      by (simpl; now rewrite (rfind_absent _ _ Hdot)).
    rewrite (rfind_app _ stem _ _ Hr), Nat.add_0_r, string_length_app.
    assert (Hc : (0 <? String.length stem)
                 && (String.length stem
                     <? String.length stem + String.length (String "."%char ext) - 1)
                 = true).
    { apply andb_true_iff. split; apply Nat.ltb_lt; simpl; lia. }
    rewrite Hc, substring_past.
    replace (String.length stem + String.length (String "."%char ext)
             - String.length stem)
      with (String.length (String "."%char ext)) by lia.
    now apply substring_whole.
  - intros E. apply (f_equal String.length) in E.
    rewrite string_length_app in E. simpl in E. lia.
  - intros E. apply (f_equal String.length) in E.
    rewrite string_length_app in E. simpl in E. lia.
Qed.

Lemma split_then_sep sep p :
  split sep (p ++ String sep EmptyString) = split sep p ++ [EmptyString].
Proof.
  induction p as [|c p IH]; simpl.
  - now rewrite Ascii.eqb_refl.
  - rewrite IH. destruct (Ascii.eqb c sep); [reflexivity|].
    pose proof (split_nonempty sep p) as Hne.
    destruct (split sep p) as [|h t]; [contradiction | reflexivity].
Qed.

(** A slash at the end of a relative path changes nothing for
    [pathlib]. *)
Lemma trailing_slash_dropped p :
  p <> EmptyString -> starts_with "/" p = false ->
  path_str (p ++ "/") = path_str p /\ path_suffix (p ++ "/") = path_suffix p.
Proof.
  intros Hne Hrel.
  assert (Hparts : path_parts (p ++ "/") = path_parts p).
  { unfold path_parts. rewrite split_then_sep, filter_app. simpl.
    now rewrite app_nil_r. }
  assert (Hroot : path_root (p ++ "/") = path_root p).
  { destruct p as [|c r]; [congruence|]. unfold path_root.
    cbn [starts_with append] in *.
    destruct (Ascii.eqb "/"%char c); [discriminate | reflexivity]. }
  unfold path_str, path_suffix, path_name. now rewrite Hparts, Hroot.
Qed.

End Extensions.

(** X20: [read_file_content] goes by the extension of the final
    component of the [pathlib] path.  A file [dir/stem.ext] that exists,
    with a non-empty stem and [.ext] in the allow-list, is opened and
    its read returned; a path whose final component has no dot, and a
    dot-file such as [dir/.md], is never opened; a slash at the end of
    a relative path changes nothing. *)
Theorem read_file_content_by_extension (w : World) (t : nat) (dir : string) :
  (forall stem ext,
     stem <> EmptyString ->
     has_char "/"%char stem = false ->
     In (String "."%char ext) ALLOWED_SUFFIXES ->
     path_exists w t
       (path_str (dir ++ String "/"%char (stem ++ String "."%char ext))) = true ->
     read_file_content w t (dir ++ String "/"%char (stem ++ String "."%char ext))
     = open_read w t
         (path_str (dir ++ String "/"%char (stem ++ String "."%char ext))))
  /\ (forall p, has_char "."%char (path_name p) = false ->
        read_file_content w t p = None)
  /\ (forall ext, ext <> EmptyString ->
        has_char "."%char ext = false -> has_char "/"%char ext = false ->
        read_file_content w t (dir ++ String "/"%char (String "."%char ext)) = None)
  /\ (forall p, p <> EmptyString -> starts_with "/" p = false ->
        read_file_content w t (p ++ "/") = read_file_content w t p).
Proof.
  split; [|split; [|split]].
  - intros stem ext Hstem Hslash Hin Hex. unfold read_file_content. rewrite Hex.
    assert (Hext : ext <> EmptyString /\ has_char "."%char ext = false
                   /\ has_char "/"%char ext = false
                   /\ str_in (lower (String "."%char ext)) ALLOWED_SUFFIXES = true).
    { simpl in Hin.
      repeat (destruct Hin as [Hin|Hin];
              [inversion Hin; subst; repeat split; discriminate|]).
      destruct Hin. }
    destruct Hext as [Hne [Hdot [Hsl Hallowed]]].
    rewrite suffix_of_name; auto.
    + cbn [negb]. now rewrite Hallowed.
    + rewrite has_char_app. simpl. now rewrite Hslash, Hsl.
  - intros p Hnodot. unfold read_file_content, path_suffix.
    rewrite (rfind_absent _ _ Hnodot).
    destruct (path_exists w t (path_str p)); reflexivity.
  - intros ext Hne Hdot Hslash. unfold read_file_content, path_suffix.
    rewrite path_name_of_component.
    + assert (Hr : rfind "."%char (String "."%char ext) = Some 0)
        by (simpl; now rewrite (rfind_absent _ _ Hdot)).
      rewrite Hr. cbn [Nat.ltb Nat.leb andb].
      destruct (path_exists w t _); reflexivity.
    + discriminate.
    + intros E. inversion E. contradiction.
    + simpl. exact Hslash.
  - intros p Hne Hrel. unfold read_file_content.
    destruct (trailing_slash_dropped p Hne Hrel) as [Hstr Hsuf].
    now rewrite Hstr, Hsuf.
Qed.

(** ** What indexing writes *)

Section IndexRows.
Variable w : World.

Lemma enumerate_nth {A} (l : list A) : forall s k,
  nth_error (enumerate_from s l) k
  = match nth_error l k with Some x => Some (s + k, x) | None => None end.
Proof.
  induction l as [|a l IH]; intros s k.
  - destruct k; reflexivity.
  - destruct k as [|k]; simpl.
    + now rewrite Nat.add_0_r.
    + rewrite IH. destruct (nth_error l k); [f_equal; f_equal; lia | reflexivity].
Qed.

Lemma combine_nth_error {A B} (l : list A) : forall (l' : list B) k,
  nth_error (combine l l') k
  = match nth_error l k, nth_error l' k with
    | Some a, Some b => Some (a, b)
    | _, _ => None
    end.
Proof.
  induction l as [|a l IH]; intros l' k.
  - destruct k; reflexivity.
  - destruct l' as [|b l'].
    + destruct k; simpl; [reflexivity | now destruct (nth_error l k)].
    + destruct k as [|k]; simpl; [reflexivity | apply IH].
Qed.

(** Row [k] of the data of one file: chunk [k] with embedding [k]. *)
Lemma make_rows_nth p i chunks embeddings k :
  nth_error (make_rows p i chunks embeddings) k
  = match nth_error chunks k, nth_error embeddings k with
    | Some c, Some e => Some (mkRow e c i p k)
    | _, _ => None
    end.
Proof.
  unfold make_rows, enumerate. rewrite nth_error_map, enumerate_nth, combine_nth_error.
  destruct (nth_error chunks k), (nth_error embeddings k); reflexivity.
Qed.

Lemma make_rows_tags p i chunks embeddings :
  Forall (fun r => r_file_path r = p /\ r_file_id r = i)
    (make_rows p i chunks embeddings).
Proof.
  unfold make_rows. apply Forall_forall. intros r Hr.
  apply in_map_iff in Hr. destruct Hr as [x [Hx _]]. subst r. auto.
Qed.

(** [index_file] either answers [False] and leaves the rows as they
    were, or answers [True] and appends the rows of the file. *)
Lemma index_file_shape st p i :
  (index_file w st p i = (false, snd (index_file w st p i))
   /\ rows_of (snd (index_file w st p i)) = rows_of st)
  \/ (exists content chunks embeddings,
        read_file_content w (clock st) p = Some content
        /\ chunk_text w content CHUNK_SIZE CHUNK_OVERLAP = Ok chunks
        /\ create_embeddings w (clock st) chunks = Some embeddings
        /\ index_file w st p i
           = (true, mkLance (Some (rows_of st ++ make_rows p i chunks embeddings))
                      (S (clock st)))).
Proof.
  unfold index_file, rows_of.
  destruct (read_file_content w (clock st) p) as [content|] eqn:Er;
    [|left; split; reflexivity].
  destruct (negb (str_truthy content)); [left; split; reflexivity|].
  destruct (chunk_text w content CHUNK_SIZE CHUNK_OVERLAP) as [[|c cs]|e] eqn:Ec;
    try (left; split; reflexivity).
  destruct (create_embeddings w (clock st) (c :: cs)) as [embeddings|] eqn:Ee;
    [|left; split; reflexivity].
  destruct (lance_raises w (clock st) Connect || lance_raises w (clock st) TableNames);
    [left; split; reflexivity|].
  change (table (tick st)) with (table st).
  destruct (table st) as [rows|] eqn:Et.
  - destruct (lance_raises w (clock st) OpenTable);
      [left; split; [reflexivity | simpl; now rewrite Et]|].
    destruct (lance_raises w (clock st) (Add (make_rows p i (c :: cs) embeddings)));
      [left; split; [reflexivity | simpl; now rewrite Et]|].
    right. exists content, (c :: cs), embeddings. repeat split; auto.
  - destruct (lance_raises w (clock st) CreateTable);
      [left; split; [reflexivity | simpl; now rewrite Et]|].
    destruct (lance_raises w (clock st) (Add (make_rows p i (c :: cs) embeddings)));
      [left; split; reflexivity|].
    right. exists content, (c :: cs), embeddings. repeat split; auto.
Qed.

Lemma lance_after_rows pairs : forall st,
  exists added,
    rows_of (lance_after w st pairs) = rows_of st ++ added
    /\ Forall (fun r => In (r_file_path r, r_file_id r) pairs) added.
Proof.
  induction pairs as [|[p i] pairs IH]; intros st.
  - exists []. simpl. now rewrite app_nil_r.
  - simpl. destruct (IH (snd (index_file w st p i))) as [added [Hrows Htags]].
    assert (Htags' : Forall (fun r => In (r_file_path r, r_file_id r) ((p, i) :: pairs))
                       added).
    { eapply Forall_impl; [|exact Htags]. intros r Hr. now right. }
    destruct (index_file_shape st p i) as [[_ Hsame]|[content [chunks [embs [_ [_ [_ E]]]]]]].
    + exists added. now rewrite Hrows, Hsame.
    + exists (make_rows p i chunks embs ++ added). rewrite Hrows, E. simpl.
      split; [now rewrite app_assoc|].
      apply Forall_app. split; [|exact Htags'].
      eapply Forall_impl; [|apply make_rows_tags].
      intros r [Hp Hi]. left. now rewrite Hp, Hi.
Qed.

End IndexRows.

(** X21: when [index_file] answers [True], the file was read and
    chunked and its chunks embedded, and the table then holds the old
    rows followed by one row for each chunk k that has an embedding:
    vector k, chunk k, the file id, the file path, chunk_index k. *)
Theorem index_file_success_rows (w : World) (st st' : lance) (p i : string) :
  index_file w st p i = (true, st') ->
  exists content chunks embeddings,
    read_file_content w (clock st) p = Some content
    /\ chunk_text w content CHUNK_SIZE CHUNK_OVERLAP = Ok chunks
    /\ create_embeddings w (clock st) chunks = Some embeddings
    /\ table st' = Some (rows_of st ++ make_rows p i chunks embeddings)
    /\ (forall k,
          nth_error (make_rows p i chunks embeddings) k
          = match nth_error chunks k, nth_error embeddings k with
            | Some c, Some e => Some (mkRow e c i p k)
            | _, _ => None
            end).
Proof.
  intros H.
  destruct (index_file_shape w st p i) as [[E _]|[content [chunks [embs [H1 [H2 [H3 E]]]]]]].
  - rewrite H in E. discriminate.
  - rewrite H in E. inversion E; subst. exists content, chunks, embs.
    repeat split; auto. intros k. apply make_rows_nth.
Qed.

Lemma index_file_success_rows_witness :
  exists content chunks embeddings,
    read_file_content calm (clock index_a) "notes/b.md" = Some content
    /\ chunk_text calm content CHUNK_SIZE CHUNK_OVERLAP = Ok chunks
    /\ create_embeddings calm (clock index_a) chunks = Some embeddings
    /\ table (snd (index_file calm index_a "notes/b.md" "2"))
       = Some (rows_of index_a ++ make_rows "notes/b.md" "2" chunks embeddings)
    /\ (forall k,
          nth_error (make_rows "notes/b.md" "2" chunks embeddings) k
          = match nth_error chunks k, nth_error embeddings k with
            | Some c, Some e => Some (mkRow e c "2" "notes/b.md" k)
            | _, _ => None
            end).
Proof.
  apply (index_file_success_rows calm index_a
           (snd (index_file calm index_a "notes/b.md" "2")) "notes/b.md" "2").
  reflexivity.
Defined.

(** X22: a batch only appends: after [index_files] the table holds the
    old rows, in place, followed by rows that each carry a path and id
    submitted together in the batch; one operation is counted per
    file. *)
Theorem index_files_only_appends (w : World) (st : lance) (paths ids : list string) :
  List.length paths = List.length ids ->
  exists added,
    rows_of (snd (index_files w st paths (Some ids))) = rows_of st ++ added
    /\ Forall (fun r => In (r_file_path r, r_file_id r) (combine paths ids)) added
    /\ clock (snd (index_files w st paths (Some ids))) = clock st + List.length paths.
Proof.
  intros Hlen. rewrite (index_files_trace w st paths ids Hlen). simpl.
  destruct (lance_after_rows w (combine paths ids) st) as [added [Hrows Htags]].
  exists added. split; [exact Hrows|]. split; [exact Htags|].
  rewrite lance_after_clock, length_combine. lia.
Qed.

Lemma index_files_only_appends_witness :
  exists added,
    rows_of (snd (index_files calm index_a ["notes/b.md"; "notes/gone.md"]
                    (Some ["2"; "7"])))
    = rows_of index_a ++ added
    /\ Forall (fun r => In (r_file_path r, r_file_id r)
                          (combine ["notes/b.md"; "notes/gone.md"] ["2"; "7"])) added
    /\ clock (snd (index_files calm index_a ["notes/b.md"; "notes/gone.md"]
                     (Some ["2"; "7"])))
       = clock index_a + 2.
Proof.
  apply (index_files_only_appends calm index_a ["notes/b.md"; "notes/gone.md"]
           ["2"; "7"]).
  reflexivity.
Defined.

(** X23: indexing a file and then removing it from the index gives
    back the rows as they were, when the index held no row of that
    file id before. *)
Theorem index_then_delete (w : World) (st st1 : lance) (p i : string) :
  sql_plain i = true ->
  rows_for i (rows_of st) = [] ->
  index_file w st p i = (true, st1) ->
  delete_quiet w (clock st1) i = true ->
  fst (delete_file_from_index w st1 i) = true
  /\ table (snd (delete_file_from_index w st1 i)) = Some (rows_of st).
Proof.
  intros _ Hnone Hidx Hq.
  destruct (index_file_shape w st p i) as [[E _]|[content [chunks [embs [_ [_ [_ E]]]]]]];
    rewrite Hidx in E; [discriminate|]. inversion E; subst st1. clear E.
  unfold delete_quiet in Hq. apply negb_true_iff in Hq.
  apply orb_false_iff in Hq. destruct Hq as [Hq H4].
  apply orb_false_iff in Hq. destruct Hq as [Hq H3].
  unfold delete_file_from_index. simpl in *. rewrite Hq, H3, H4. simpl.
  split; [reflexivity|]. f_equal. rewrite filter_app.
  assert (E1 : filter (fun r => negb (String.eqb (r_file_id r) i)) (rows_of st)
               = rows_of st).
  { apply filter_all_true. intros r Hr. apply negb_true_iff.
    apply (filter_nil_all _ _ Hnone r Hr). }
  assert (E2 : filter (fun r => negb (String.eqb (r_file_id r) i))
                 (make_rows p i chunks embs) = []).
  { apply filter_nil_iff.
    destruct (existsb _ (make_rows p i chunks embs)) eqn:Ex; [|reflexivity].
    apply existsb_exists in Ex. destruct Ex as [r [Hr Hneg]].
    pose proof (make_rows_tags p i chunks embs) as Htags.
    rewrite Forall_forall in Htags. destruct (Htags r Hr) as [_ Hi].
    rewrite Hi, String.eqb_refl in Hneg. discriminate. }
  now rewrite E1, E2, app_nil_r.
Qed.

Lemma index_then_delete_witness :
  fst (delete_file_from_index calm
         (snd (index_file calm index_a "notes/b.md" "2")) "2") = true
  /\ table (snd (delete_file_from_index calm
                   (snd (index_file calm index_a "notes/b.md" "2")) "2"))
     = Some (rows_of index_a).
Proof.
  apply (index_then_delete calm index_a
           (snd (index_file calm index_a "notes/b.md" "2")) "notes/b.md" "2");
    reflexivity.
Defined.

(** ** What the endpoints answer *)

Section Endpoints.



(** A second loop that no write interrupts is [mark_outcomes]; one
    that is interrupted met a write that raised. *)
Lemma write_outcomes_done w failed pairs : forall t d d' t',
  write_outcomes w t d pairs failed = (d', t', None) ->
  d' = mark_outcomes d pairs failed.
Proof.
  unfold mark_outcomes. induction pairs as [|pi pairs IH]; intros t d d' t' H.
  - simpl in H. now inversion H.
  - simpl in *. destruct (status_write_raises w t (snd pi)); [discriminate|].
    now apply IH in H.
Qed.


Lemma lookup_after_update_same d i s r :
  get_file_status d i = Ok (Some r) ->
  get_file_status (update_file_status d i s) i = Ok (Some (set_status s r)).
Proof.
  unfold get_file_status, update_file_status. intros H. apply scalar_some in H.
  rewrite filter_id_update by reflexivity. rewrite H. simpl.
  assert (E : has_id i r = true).
  { assert (Hin : In r (filter (has_id i) d)) by (rewrite H; now left).
    apply filter_In in Hin. tauto. }
  now rewrite E.
Qed.

Lemma lookup_after_update_other d i j s :
  j <> i -> get_file_status (update_file_status d i s) j = get_file_status d j.
Proof.
  unfold get_file_status, update_file_status. intros Hne.
  rewrite filter_id_update by reflexivity.
  f_equal. apply update_where_none. intros r Hr.
  apply filter_In in Hr. destruct Hr as [_ Hj]. now apply (has_id_other j i).
Qed.

End Endpoints.

(** X24: the search endpoint never fails: an empty query is answered
    400 before anything runs; any other query is answered with a list,
    and that list is empty whenever the query cannot be embedded or a
    call on the vector store raises. *)
Theorem search_index_never_fails (w : World) (st : lance) (query : string) (limit : nat) :
  (str_truthy query = false ->
     search_index w st query limit = (Raise (HTTPException 400 "Query is required"), st))
  /\ (str_truthy query = true ->
      exists results,
        search_index w st query limit = (Ok results, tick st)
        /\ (search_fails w (clock st) query limit = true -> results = [])).
Proof.
  unfold search_index. split; intros Hq; rewrite Hq; simpl; [reflexivity|].
  unfold search_similar, search_fails.
  destruct (create_embeddings w (clock st) [query]) as [[|qv rest]|];
    try (eexists; split; reflexivity).
  destruct (lance_raises w (clock st) Connect), (lance_raises w (clock st) TableNames);
    simpl; try (eexists; split; reflexivity).
  destruct (table st) as [rows|]; [|eexists; split; reflexivity].
  destruct (lance_raises w (clock st) OpenTable),
    (lance_raises w (clock st) (Search qv limit));
    simpl; eexists; split; try reflexivity; discriminate.
Qed.

(** X25: the remove-from-index endpoint never answers 404; when the
    gateway reports failure (missing table or an exception) it answers
    500 with the 404's text as detail, and neither the status table
    nor the rows of the index change. *)
Theorem delete_endpoint_never_answers_404
  (w : World) (d : db) (st : lance) (file_id : string) :
  reply_of (fst (fst (delete_indexed_file w d st file_id))) <> NotFound
  /\ (fst (delete_file_from_index w st file_id) = false ->
      delete_indexed_file w d st file_id
      = (Raise (HTTPException 500 "Delete failed: 404: File not found in index"),
         d, tick st)).
Proof.
  split.
  - unfold delete_indexed_file.
    destruct (delete_indexed_file_body w d st file_id) as [[[v|e] d'] st'];
      simpl; discriminate.
  - unfold delete_indexed_file, delete_indexed_file_body, delete_file_from_index.
    destruct (lance_raises w (clock st) Connect || lance_raises w (clock st) TableNames);
      [reflexivity|].
    change (table (tick st)) with (table st).
    destruct (table st) as [rows|]; [|reflexivity].
    destruct (lance_raises w (clock st) OpenTable
              || lance_raises w (clock st) (DeleteWhere (where_file_id file_id)));
      [reflexivity | discriminate].
Qed.

(** X26: a successful remove-from-index leaves the status of the
    file's record PENDING whatever it was before, every other record
    looking up as before. *)
Theorem remove_from_index_resets_status
  (w : World) (d : db) (st : lance) (file_id : string) (rows : list row)
  (r : FileStatus) :
  unique_ids d ->
  table st = Some rows ->
  delete_quiet w (clock st) file_id = true ->
  get_file_status d file_id = Ok (Some r) ->
  fst (fst (delete_indexed_file w d st file_id)) = Ok file_id
  /\ get_file_status (snd (fst (delete_indexed_file w d st file_id))) file_id
     = Ok (Some (mkFileStatus (fs_id r) (fs_name r) (fs_path r) PENDING))
  /\ (forall j, j <> file_id ->
        get_file_status (snd (fst (delete_indexed_file w d st file_id))) j
        = get_file_status d j).
Proof.
  intros Hu Ht Hq Hget.
  rewrite (delete_endpoint_success w d st file_id rows Hu Ht Hq). simpl.
  unfold reset_pending. rewrite Hget. split; [reflexivity|]. split.
  - now apply lookup_after_update_same.
  - intros j Hne. now apply lookup_after_update_other.
Qed.

Lemma remove_from_index_resets_status_witness :
  fst (fst (delete_indexed_file calm [rec_a; rec_b] index_a "1")) = Ok "1"
  /\ get_file_status (snd (fst (delete_indexed_file calm [rec_a; rec_b] index_a "1"))) "1"
     = Ok (Some (mkFileStatus "1" "a.md" "notes/a.md" PENDING))
  /\ (forall j, j <> "1" ->
        get_file_status (snd (fst (delete_indexed_file calm [rec_a; rec_b] index_a "1"))) j
        = get_file_status [rec_a; rec_b] j).
Proof.
  apply (remove_from_index_resets_status calm [rec_a; rec_b] index_a "1"
           [row_a 0] rec_a);
    [ | reflexivity | reflexivity | reflexivity].
  repeat constructor; simpl; intuition discriminate.
Defined.



(** A status write that raises after the batch is answered 500, the
    records then being marked ERROR by the [except] clause. *)
Example locked_table_answers_500 :
  fst (run_indexing locked_table [rec_a; rec_b] empty_index ["notes/a.md"])
  = (Raise (HTTPException 500 "Indexing failed: database is locked"),
     [mkFileStatus "1" "a.md" "notes/a.md" ERROR; rec_b]).
Proof. reflexivity. Qed.

(** ** The statuses after an indexing run *)

Section RunIndexing.

Lemma str_in_spec s l : str_in s l = true <-> In s l.
Proof.
  unfold str_in. rewrite existsb_exists. split.
  - intros [x [Hx E]]. apply String.eqb_eq in E. now subst.
  - intros H. exists s. split; [exact H | apply String.eqb_refl].
Qed.

Lemma mark_outcomes_rows failed pairs : forall d,
  mark_outcomes d pairs failed = map (mark_row failed pairs) d.
Proof.
  unfold mark_outcomes, mark_row.
  induction pairs as [|pi pairs IH]; intros d; simpl.
  - now rewrite map_id.
  - rewrite IH. unfold verdict.
    destruct (str_in (fst pi) failed);
      unfold update_file_status, update_where; rewrite map_map; reflexivity.
Qed.

(** A row whose id only occurs with its own path ends with the verdict
    of that path, or untouched when its id does not occur. *)
Lemma mark_row_value failed pairs : forall r acc,
  fs_id acc = fs_id r -> fs_path acc = fs_path r ->
  (forall pi, In pi pairs -> snd pi = fs_id r -> fst pi = fs_path r) ->
  mark_row failed pairs acc
  = if existsb (fun pi => String.eqb (snd pi) (fs_id r)) pairs
    then set_status (verdict failed (fs_path r)) acc
    else acc.
Proof.
  unfold mark_row. induction pairs as [|pi pairs IH]; intros r acc Hi Hp Hown.
  - reflexivity.
  - simpl.
    assert (Eh : has_id (snd pi) acc = String.eqb (snd pi) (fs_id r))
      by (unfold has_id; rewrite Hi; apply String.eqb_sym).
    rewrite Eh. destruct (String.eqb (snd pi) (fs_id r)) eqn:E; simpl.
    + apply String.eqb_eq in E.
      rewrite (Hown pi (or_introl eq_refl) E).
      rewrite (IH r (set_status (verdict failed (fs_path r)) acc) Hi Hp
                 (fun pi0 H => Hown pi0 (or_intror H))).
      now destruct (existsb _ pairs).
    + exact (IH r acc Hi Hp (fun pi0 H => Hown pi0 (or_intror H))).
Qed.

(** The pairs [run_indexing] resolves: each is the path and id of a
    record at a requested path, and every record at a requested path
    is among them. *)
Lemma resolve_paths_spec d paths : forall vp ids,
  resolve_paths d paths = Ok (vp, ids) ->
  (forall pi, In pi (combine vp ids) ->
     In (fst pi) paths
     /\ exists r, In r d /\ fs_path r = fst pi /\ fs_id r = snd pi)
  /\ (forall r, In r d -> In (fs_path r) paths ->
        In (fs_path r, fs_id r) (combine vp ids)).
Proof.
  induction paths as [|p paths IH]; simpl; intros vp ids H.
  - inversion H. simpl. split; [intros pi [] | intros r _ []].
  - destruct (get_file_status_by_path d p) as [found|e] eqn:Eg; [|discriminate].
    destruct (resolve_paths d paths) as [[vp' ids']|e']; [|discriminate].
    destruct (IH vp' ids' eq_refl) as [IHa IHb].
    assert (Hsingle : forall r, In r d -> fs_path r = p -> found = Some r).
    { intros r Hr Hp. unfold get_file_status_by_path in Eg.
      assert (Hin : In r (filter (has_path p) d))
        by (apply filter_In; split; [exact Hr | now apply has_path_true]).
      destruct (filter (has_path p) d) as [|a [|b l]]; simpl in Eg.
      - destruct Hin.
      - inversion Eg. destruct Hin as [Hin|[]]. now subst.
      - discriminate. }
    destruct found as [r0|]; inversion H; subst; clear H.
    + pose proof (lookup_by_path_in d p r0 Eg) as [Hr0 Hp0]. split.
      * intros pi [Hpi|Hpi].
        -- subst pi. simpl. split; [now left|]. exists r0. auto.
        -- destruct (IHa pi Hpi) as [Hin Hex]. split; [now right | exact Hex].
      * intros r Hr [Hp|Hp].
        -- left. symmetry in Hp. pose proof (Hsingle r Hr Hp) as E.
           inversion E. subst. reflexivity.
        -- right. now apply IHb.
    + split.
      * intros pi Hpi. destruct (IHa pi Hpi) as [Hin Hex]. split; [now right | exact Hex].
      * intros r Hr [Hp|Hp].
        -- symmetry in Hp. pose proof (Hsingle r Hr Hp). discriminate.
        -- now apply IHb.
Qed.

End RunIndexing.

(** X28: with distinct ids, a completed [run_indexing] rewrites exactly
    the records at the requested paths: each gets ERROR if its path is
    in the batch's [failed_files] and SYNCED otherwise; ids, names and
    paths, and every other record, are as before. *)
Theorem run_indexing_marks_requested_files
  (w : World) (d d' : db) (st st' : lance) (paths : list string) (res : batch_result) :
  unique_ids d ->
  run_indexing w d st paths = (Ok res, d', st') ->
  d' = map (fun r => if str_in (fs_path r) paths
                     then mkFileStatus (fs_id r) (fs_name r) (fs_path r)
                            (verdict (failed_files res) (fs_path r))
                     else r) d.
Proof.
  intros Hu Hrun. unfold run_indexing in Hrun.
  destruct paths as [|p0 paths0]; [discriminate|].
  remember (p0 :: paths0) as paths eqn:Hpaths. clear Hpaths.
  destruct (resolve_paths d paths) as [[vp ids]|e] eqn:Er; [|discriminate].
  destruct vp as [|v vp]; [discriminate|].
  destruct (index_files w st (v :: vp) (Some ids)) as [[res0|e0] st0]; [|discriminate].
  destruct (write_outcomes w (clock st0) d (combine (v :: vp) ids) (failed_files res0))
    as [[d1 t1] [e1|]] eqn:Ew; [discriminate|].
  inversion Hrun; subst res0 d1 st0. clear Hrun.
  apply write_outcomes_done in Ew. subst d'.
  destruct (resolve_paths_spec d paths _ _ Er) as [Ha Hb].
  rewrite mark_outcomes_rows. apply map_ext_in. intros r Hr.
  rewrite (mark_row_value _ _ r r eq_refl eq_refl).
  - destruct (str_in (fs_path r) paths) eqn:Es.
    + apply str_in_spec in Es.
      assert (Hex : existsb (fun pi => String.eqb (snd pi) (fs_id r))
                      (combine (v :: vp) ids) = true).
      { apply existsb_exists. exists (fs_path r, fs_id r).
        split; [now apply Hb | apply String.eqb_refl]. }
      now rewrite Hex.
    + destruct (existsb _ (combine (v :: vp) ids)) eqn:Hex; [|reflexivity].
      apply existsb_exists in Hex. destruct Hex as [pi [Hpi E]].
      apply String.eqb_eq in E.
      destruct (Ha pi Hpi) as [Hin [r' [Hr' [Hp' Hi']]]].
      assert (r' = r) by (apply (unique_ids_inj d); auto; congruence). subst r'.
      rewrite <- Hp' in Hin. apply str_in_spec in Hin. congruence.
  - intros pi Hpi E. destruct (Ha pi Hpi) as [_ [r' [Hr' [Hp' Hi']]]].
    assert (r' = r) by (apply (unique_ids_inj d); auto; congruence). subst r'.
    now symmetry.
Qed.

Lemma run_indexing_marks_requested_files_witness :
  snd (fst (run_indexing outage [rec_a; rec_b] empty_index
              ["notes/a.md"; "notes/zzz.md"]))
  = map (fun r => if str_in (fs_path r) ["notes/a.md"; "notes/zzz.md"]
                  then mkFileStatus (fs_id r) (fs_name r) (fs_path r)
                         (verdict ["notes/a.md"] (fs_path r))
                  else r) [rec_a; rec_b].
Proof.
  apply (run_indexing_marks_requested_files outage [rec_a; rec_b]
           (snd (fst (run_indexing outage [rec_a; rec_b] empty_index
                        ["notes/a.md"; "notes/zzz.md"])))
           empty_index
           (snd (run_indexing outage [rec_a; rec_b] empty_index
                   ["notes/a.md"; "notes/zzz.md"]))
           ["notes/a.md"; "notes/zzz.md"] (mkBatch 1 0 1 ["notes/a.md"])).
  - repeat constructor; simpl; intuition discriminate.
  - reflexivity.
Defined.

(** ** The status endpoints and the observer manager *)

Section StatusEndpoints.

Lemma status_eqb_eq a b : status_eqb a b = true <-> a = b.
Proof. destruct a, b; simpl; split; intros H; congruence. Qed.

Lemma in_offset_limit {A} (skip limit : nat) (l : list A) x :
  In x (offset_limit skip limit l) -> In x l.
Proof.
  unfold offset_limit. intros H.
  rewrite <- (firstn_skipn skip l). apply in_or_app. right.
  rewrite <- (firstn_skipn limit (skipn skip l)). apply in_or_app. now left.
Qed.

End StatusEndpoints.

(** X29: with a limit FastAPI accepts (1..1000), a page of
    [get_all_files] or [get_files_by_status] holds at most [limit]
    records, the latter only records of the status asked for; the
    pages at skip = 0, limit, 2*limit, ... put end to end are the
    whole table, each record once. *)
Theorem pages_cover_the_table (d : db) (limit : nat) :
  limit_ok limit = true ->
  (forall skip,
     get_all_files d skip limit = Body (offset_limit skip limit d)
     /\ List.length (offset_limit skip limit d) <= limit)
  /\ (forall status skip,
        exists page,
          get_files_by_status d status skip limit = Body page
          /\ List.length page <= limit
          /\ Forall (fun r => fs_status r = status /\ In r d) page)
  /\ List.concat (map (fun k => offset_limit (k * limit) limit d)
                    (seq 0 (ceil_div (List.length d) limit)))
     = d.
Proof.
  intros Hok. unfold get_all_files, get_files_by_status. rewrite Hok.
  split; [|split].
  - intros skip. split; [reflexivity | apply firstn_le_length].
  - intros status skip. eexists. split; [reflexivity|].
    split; [apply firstn_le_length|].
    apply Forall_forall. intros r Hr.
    apply in_offset_limit, filter_In in Hr. destruct Hr as [Hin Hs].
    apply status_eqb_eq in Hs. auto.
  - unfold limit_ok in Hok. apply andb_true_iff in Hok. destruct Hok as [Hlo _].
    apply Nat.leb_le in Hlo.
    change (fun k => offset_limit (k * limit) limit d)
      with (fun k => slice (0 + k * limit) limit d).
    rewrite concat_slices. apply slice_whole.
    pose proof (ceil_div_spec (List.length d) limit). lia.
Qed.

Lemma pages_cover_the_table_witness :
  (forall skip,
     get_all_files [rec_a; rec_b] skip 1 = Body (offset_limit skip 1 [rec_a; rec_b])
     /\ List.length (offset_limit skip 1 [rec_a; rec_b]) <= 1)
  /\ (forall status skip,
        exists page,
          get_files_by_status [rec_a; rec_b] status skip 1 = Body page
          /\ List.length page <= 1
          /\ Forall (fun r => fs_status r = status /\ In r [rec_a; rec_b]) page)
  /\ List.concat (map (fun k => offset_limit (k * 1) 1 [rec_a; rec_b])
                    (seq 0 (ceil_div (List.length [rec_a; rec_b]) 1)))
     = [rec_a; rec_b].
Proof.
  apply (pages_cover_the_table [rec_a; rec_b] 1). reflexivity.
Defined.

(** X30: the manager's life cycle.  [stop] always ends without an
    observer, whether or not stopping raised; [start] on a running
    manager does nothing, so a callback registered while running does
    not reach the running observer; a restart whose [Observer.start]
    succeeds runs an observer on the manager's path with the callback
    last registered, and one whose start raises leaves the manager
    stopped. *)
Theorem manager_life_cycle (m : Manager.WatchdogManager) :
  (forall stop_raises alive,
     Manager.is_running alive (Manager.stop stop_raises m) = false)
  /\ (forall obs cb start_raises,
        Manager._observer m = Some obs ->
        Manager._observer
          (Manager.start start_raises (Manager.set_callback m cb)) = Some obs)
  /\ (forall cb stop_raises,
        Manager._observer
          (Manager.restart stop_raises false (Manager.set_callback m cb))
        = Some (Manager.mkObserver (Manager.Registered cb)
                  (Manager.m_path m) (Manager.m_recursive m)))
  /\ (forall stop_raises,
        Manager._observer (Manager.restart stop_raises true m) = None).
Proof.
  destruct m as [path recursive [obs|] h]; repeat split; intros;
    unfold Manager.restart, Manager.start, Manager.stop, Manager.set_callback,
      Manager.is_running; simpl in *;
    try discriminate; try (destruct stop_raises); try (destruct start_raises);
    simpl; congruence.
Qed.

(** ** The further properties on concrete inputs *)

Lemma create_then_lookup_witness :
  create_file_status [rec_a] (mkFileStatus "1" "x.md" "notes/x.md" PENDING)
  = ([rec_a], Raise IntegrityError)
  /\ get_file_status (fst (create_file_status [rec_a] rec_b)) "2" = Ok (Some rec_b).
Proof.
  split.
  - apply (proj1 (create_then_lookup [rec_a]
                    (mkFileStatus "1" "x.md" "notes/x.md" PENDING))).
    simpl. now left.
  - assert (Hfresh : ~ In (fs_id rec_b) (map fs_id [rec_a]))
      by (simpl; intuition discriminate).
    destruct (proj2 (create_then_lookup [rec_a] rec_b) Hfresh) as [_ [H _]].
    exact H.
Defined.

Lemma update_then_lookup_witness :
  get_file_status (update_file_status [rec_a; rec_b] "1" ERROR) "1"
  = Ok (Some (mkFileStatus "1" "a.md" "notes/a.md" ERROR))
  /\ get_file_status (update_file_status [rec_a; rec_b] "1" ERROR) "2"
     = get_file_status [rec_a; rec_b] "2"
  /\ update_file_status [rec_a; rec_b] "5" ERROR = [rec_a; rec_b].
Proof.
  destruct (update_then_lookup [rec_a; rec_b] "1" ERROR) as [_ [H2 H3]].
  destruct (update_then_lookup [rec_a; rec_b] "5" ERROR) as [H1 _].
  split; [apply (H2 rec_a); reflexivity|].
  split; [apply H3; discriminate | apply H1; reflexivity].
Defined.

Lemma delete_then_lookup_witness :
  get_file_status (delete_file_status [rec_a; rec_b] "1") "2"
  = get_file_status [rec_a; rec_b] "2"
  /\ delete_file_status [rec_a; rec_b] "5" = [rec_a; rec_b].
Proof.
  destruct (delete_then_lookup [rec_a; rec_b] "1") as [_ [H2 _]].
  destruct (delete_then_lookup [rec_a; rec_b] "5") as [_ [_ H3]].
  split; [apply H2; discriminate | apply H3; reflexivity].
Defined.

Lemma delete_by_status_is_exact_witness :
  list_file_statuses_by_status (delete_file_statuses_by_status [rec_a; rec_b] SYNCED)
    PENDING
  = list_file_statuses_by_status [rec_a; rec_b] PENDING.
Proof.
  apply (proj2 (delete_by_status_is_exact [rec_a; rec_b] SYNCED)). discriminate.
Defined.


Lemma read_file_content_by_extension_witness :
  read_file_content calm 0 ("notes" ++ String "/"%char ("a" ++ String "."%char "md"))
  = open_read calm 0
      (path_str ("notes" ++ String "/"%char ("a" ++ String "."%char "md")))
  /\ read_file_content calm 0 "notes/README" = None
  /\ read_file_content calm 0 ("notes" ++ String "/"%char (String "."%char "md")) = None
  /\ read_file_content calm 0 ("notes/a.md" ++ "/") = read_file_content calm 0 "notes/a.md".
Proof.
  destruct (read_file_content_by_extension calm 0 "notes") as [H1 [H2 [H3 H4]]].
  split; [|split; [|split]].
  - apply H1; [discriminate | reflexivity | simpl; now left | reflexivity].
  - apply H2. reflexivity.
  - apply H3; [discriminate | reflexivity | reflexivity].
  - apply H4; [discriminate | reflexivity].
Defined.

(** The file behind a path written with a slash at its end is read. *)
Example trailing_slash_is_read :
  read_file_content calm 0 "notes/a.md/" = Some "alpha"
  /\ path_suffix "notes/a.md/" = ".md"
  /\ path_str "notes/a.md/" = "notes/a.md"
  /\ not_indexable calm 0 "notes/a.md/" = false.
Proof. repeat split. Qed.

Lemma search_index_never_fails_witness :
  search_index calm index_a "" 3
  = (Raise (HTTPException 400 "Query is required"), index_a)
  /\ exists results,
       search_index outage index_a "alpha" 3 = (Ok results, tick index_a)
       /\ (search_fails outage (clock index_a) "alpha" 3 = true -> results = []).
Proof.
  split.
  - apply (proj1 (search_index_never_fails calm index_a "" 3)). reflexivity.
  - apply (proj2 (search_index_never_fails outage index_a "alpha" 3)). reflexivity.
Defined.

Lemma delete_endpoint_never_answers_404_witness :
  delete_indexed_file calm [rec_a] empty_index "1"
  = (Raise (HTTPException 500 "Delete failed: 404: File not found in index"),
     [rec_a], tick empty_index).
Proof.
  apply (proj2 (delete_endpoint_never_answers_404 calm [rec_a] empty_index "1")).
  reflexivity.
Defined.

Lemma manager_life_cycle_witness :
  Manager._observer
    (Manager.start false
       (Manager.set_callback
          (Manager.start false (Manager.init "vault" None true)) 7))
  = Some (Manager.mkObserver Manager.DebugLogger "vault" true).
Proof.
  destruct (manager_life_cycle (Manager.start false (Manager.init "vault" None true)))
    as [_ [H _]].
  apply H. reflexivity.
Defined.
